(** * python-monolith: configuration store, application discovery and
      process supervision

    A shallow embedding of [shared/utils.py] ([ConfigManager],
    [load_json_config]) and of [apps/launcher/main.py] ([AppDiscovery],
    [AppRunner]), followed by the properties of the specification.

    Python text ([str]) is embedded as [string]; the embedding covers the
    ASCII fragment (characters above 127 are treated as caseless, and as
    neither whitespace nor digits; [str.lower] also maps some characters
    outside ASCII to ASCII letters, which a statement about the absence
    of a marker has to exclude).  The scan of the file system is
    embedded twice: in [Discovery] as the value it computes when every
    call on the file system outside a [try] returns, and in [Scan] with
    the outcome of each of these calls.  Python objects that are mutated in
    place (the nested dictionaries of a configuration document) live in an
    explicit store, so that two keys holding the same dictionary object
    are visible as such. *)

From Stdlib Require Import ZArith Ascii String List Bool Sorting.Sorted
  Sorting.Permutation Structures.OrderedTypeEx Lia.
From stdpp Require Import gmap strings list fin_maps.

Import ListNotations.
Local Open Scope string_scope.
Local Open Scope list_scope.

(** ** Exceptions and results *)

Inductive exn : Type :=
| KeyError
| TypeError
| ValueError
| IndexError
| FileNotFoundError
| JSONDecodeError
| UnicodeDecodeError
| PermissionError
| RuntimeError.

Inductive result (A : Type) : Type :=
| Ok (a : A)
| Raise (e : exn).

Arguments Ok {A} a.
Arguments Raise {A} e.

#[global] Instance result_ret : MRet result := fun A a => Ok a.

#[global] Instance result_bind : MBind result := fun A B f r =>
  match r with
  | Ok a => f a
  | Raise e => Raise e
  end.

(** ** Text helpers

    The [str] methods the program calls, on the ASCII fragment. *)

Definition newline : ascii := "010"%char.
Definition dquote : ascii := "034"%char.

(** [s.split(sep)] for a one-character separator: one piece per
    separator plus one, never empty. *)
Fixpoint str_split (sep : ascii) (s : string) : list string :=
  match s with
  | EmptyString => [EmptyString]
  | String c s' =>
      if Ascii.eqb c sep then EmptyString :: str_split sep s'
      else match str_split sep s' with
           | [] => [String c EmptyString]
           | w :: ws => String c w :: ws
           end
  end.

Definition code (c : ascii) : nat := nat_of_ascii c.

Definition is_upper (c : ascii) : bool :=
  Nat.leb 65 (code c) && Nat.leb (code c) 90.

Definition lower_char (c : ascii) : ascii :=
  if is_upper c then ascii_of_nat (code c + 32) else c.

(** [s.lower()], on ASCII text *)
Fixpoint lower (s : string) : string :=
  match s with
  | EmptyString => EmptyString
  | String c s' => String (lower_char c) (lower s')
  end.

(** Python's whitespace below 128: tab to carriage return, the four
    separators 28 to 31, and the space. *)
Definition is_space (c : ascii) : bool :=
  (Nat.leb 9 (code c) && Nat.leb (code c) 13)
  || (Nat.leb 28 (code c) && Nat.leb (code c) 32).

Definition is_digit (c : ascii) : bool :=
  Nat.leb 48 (code c) && Nat.leb (code c) 57.

(** [s.startswith(p)] *)
Definition startswith (p s : string) : bool := String.prefix p s.

(** [sub in s] *)
Fixpoint contains (sub s : string) : bool :=
  String.prefix sub s
  || match s with
     | EmptyString => false
     | String _ s' => contains sub s'
     end.

Fixpoint str_rev_onto (s acc : string) : string :=
  match s with
  | EmptyString => acc
  | String c s' => str_rev_onto s' (String c acc)
  end.

Definition str_rev (s : string) : string := str_rev_onto s EmptyString.

(** [s.endswith(p)] *)
Definition endswith (p s : string) : bool :=
  String.prefix (str_rev p) (str_rev s).

Fixpoint lstrip (s : string) : string :=
  match s with
  | EmptyString => EmptyString
  | String c s' => if is_space c then lstrip s' else s
  end.

Fixpoint rstrip (s : string) : string :=
  match s with
  | EmptyString => EmptyString
  | String c s' =>
      match rstrip s' with
      | EmptyString => if is_space c then EmptyString else String c EmptyString
      | r => String c r
      end
  end.

(** [s.strip()] *)
Definition strip (s : string) : string := rstrip (lstrip s).

(** [s[i:]] and [s[i:-j]] for [i + j <= len(s)] *)
Definition slice_from (i : nat) (s : string) : string :=
  String.substring i (String.length s - i) s.

Definition slice_between (i j : nat) (s : string) : string :=
  String.substring i (String.length s - i - j) s.

(** [s.replace(a, b)] for single characters *)
Fixpoint replace_char (a b : ascii) (s : string) : string :=
  match s with
  | EmptyString => EmptyString
  | String c s' => String (if Ascii.eqb c a then b else c) (replace_char a b s')
  end.

(** [s.split()]: the maximal runs of characters that are not
    whitespace.  [cur] is the run being read, reversed. *)
Fixpoint split_ws_from (s : string) (cur : string) : list string :=
  match s with
  | EmptyString =>
      match cur with
      | EmptyString => []
      | _ => [str_rev cur]
      end
  | String c s' =>
      if is_space c then
        match cur with
        | EmptyString => split_ws_from s' EmptyString
        | _ => str_rev cur :: split_ws_from s' EmptyString
        end
      else split_ws_from s' (String c cur)
  end.

Definition split_ws (s : string) : list string := split_ws_from s EmptyString.

(** [s.rfind(c)], [None] for -1 *)
Fixpoint rfind (c : ascii) (s : string) : option nat :=
  match s with
  | EmptyString => None
  | String a s' =>
      match rfind c s' with
      | Some i => Some (S i)
      | None => if Ascii.eqb a c then Some 0%nat else None
      end
  end.

(** [int(s)] on a run of ASCII digits *)
Fixpoint int_digits (s : string) (acc : Z) : result Z :=
  match s with
  | EmptyString => Ok acc
  | String c s' =>
      if is_digit c
      then int_digits s' (10 * acc + Z.of_nat (code c - 48))%Z
      else Raise ValueError
  end.

(** [int(s)] for a string of digits; the limit on the number of digits
    ([sys.set_int_max_str_digits]) is left out. *)
Definition py_int (s : string) : result Z :=
  match s with
  | EmptyString => Raise ValueError
  | _ => int_digits s 0%Z
  end.

(** [a < b] and [a == b] on [str]: by code point, lexicographic. *)
Definition str_lt (a b : string) : bool := String.ltb a b.
Definition str_eq (a b : string) : bool := String.eqb a b.

(** *** Regular expressions

    The patterns of [_extract_port] use literals, a greedy starred
    character class, and one final group [(\d+)].  [re_match_here]
    is the backtracking matcher of [re] for that fragment, under
    [re.IGNORECASE]. *)

Inductive re_item : Type :=
| Lit (c : ascii)
| Star (cls : ascii → bool).

Record pattern : Type := mkPattern {
  items : list re_item;
  group : ascii → bool
}.

(** The longest non-empty run of [cls] at the head of [s]: a final
    greedy [(cls+)]. *)
Fixpoint take_while (cls : ascii → bool) (s : string) : string :=
  match s with
  | EmptyString => EmptyString
  | String c s' => if cls c then String c (take_while cls s') else EmptyString
  end.

Definition match_group (cls : ascii → bool) (s : string) : option string :=
  match take_while cls s with
  | EmptyString => None
  | g => Some g
  end.

Fixpoint re_match_here (its : list re_item) (cls : ascii → bool)
    (s : string) : option string :=
  match its with
  | [] => match_group cls s
  | Lit c :: its' =>
      match s with
      | String a s' =>
          if Ascii.eqb (lower_char c) (lower_char a)
          then re_match_here its' cls s'
          else None
      | EmptyString => None
      end
  | Star p :: its' =>
      (fix star (s : string) : option string :=
         match s with
         | String a s' =>
             if p a then
               match star s' with
               | Some g => Some g
               | None => re_match_here its' cls s
               end
             else re_match_here its' cls s
         | EmptyString => re_match_here its' cls s
         end) s
  end.

(** The group of the leftmost match: [re.findall(p, s)[0]], [None] when
    [findall] returns the empty list. *)
Fixpoint re_first (p : pattern) (s : string) : option string :=
  match re_match_here (items p) (group p) s with
  | Some g => Some g
  | None =>
      match s with
      | EmptyString => None
      | String _ s' => re_first p s'
      end
  end.

Definition lits (s : string) : list re_item :=
  List.map Lit (list_ascii_of_string s).

(** ** Application discovery *)

Module Discovery.

Record AppInfo : Type := mkAppInfo {
  name : string;
  path : string;
  type : string;
  main_file : string;
  description : string;
  command : string;
  port : option Z
}.

(** *** What a scan observes of the file system *)

(** [p.read_text(encoding='utf-8')]: the text, or an exception. *)
Inductive read_text : Type :=
| Text (content : string)
| Unreadable (e : exn).

(** One entry of [apps_dir.iterdir()].  [main_py = None] when
    [main.py] does not exist below the entry. *)
Record app_entry : Type := mkAppEntry {
  entry_name : string;
  is_dir : bool;
  main_py : option read_text;
  has_templates : bool;
  has_static : bool
}.

(** One entry of the scripts directory. *)
Record script_entry : Type := mkScriptEntry {
  file_name : string;
  script_text : read_text
}.

(** [apps_dir = None] and [scripts_dir = None] when the directory
    does not exist. *)
Record filesystem : Type := mkFilesystem {
  apps_dir : option (list app_entry);
  scripts_dir : option (list script_entry)
}.

Record AppDiscovery : Type := mkAppDiscovery {
  project_root : string
}.

(** [a / b] on paths, for a root other than [.] *)
Definition joinpath (a b : string) : string := (a ++ "/" ++ b)%string.

(** *** [_determine_app_type] *)

Definition tui_markers : list string :=
  ["from textual"; "import textual"; "textual.app"; "textual.widgets"].

Definition gui_markers : list string :=
  ["from nicegui"; "import nicegui"; "nicegui"; "tkinter"; "pygame";
   "kivy"; "pyside"; "pyqt"].

Definition cli_markers : list string :=
  ["from typer"; "import typer"; "typer.typer"; "@app.command";
   "click.command"; "argparse.argumentparser"].

Definition web_markers : list string :=
  ["fastapi"; "from fastapi"; "flask"; "django"; "starlette"].

(** [any(m in text for m in markers)] *)
Definition any_in (markers : list string) (text : string) : bool :=
  existsb (fun m => contains m text) markers.

Definition _determine_app_type (content : string) (app : app_entry)
    : string :=
  let content_lower := lower content in
  if any_in tui_markers content_lower then "tui"
  else if any_in gui_markers content_lower then "gui"
  else if any_in cli_markers content_lower then "cli"
  else if any_in web_markers content_lower then "web"
  else if has_templates app || has_static app then "web"
  else "script".

(** *** [_extract_description] *)

Definition triple_quote : string :=
  String dquote (String dquote (String dquote EmptyString)).

(** The first loop: [inl d] is an early [return d], [inr ls] the
    collected [docstring_lines] when the loop ends or breaks. *)
Fixpoint docstring_loop (lines : list string) (in_docstring : bool)
    (docstring_lines : list string) : string + list string :=
  match lines with
  | [] => inr docstring_lines
  | line :: lines' =>
      let stripped := strip line in
      if negb in_docstring && startswith triple_quote stripped then
        if endswith triple_quote stripped
           && Nat.ltb 6 (String.length stripped)
        then inl (strip (slice_between 3 3 stripped))
        else docstring_loop lines' true docstring_lines
      else if in_docstring then
        if endswith triple_quote stripped then inr docstring_lines
        else docstring_loop lines' true (docstring_lines ++ [stripped])
      else docstring_loop lines' in_docstring docstring_lines
  end.

Fixpoint comment_loop (lines : list string) : option string :=
  match lines with
  | [] => None
  | line :: lines' =>
      let stripped := strip line in
      if startswith "#" stripped && Nat.ltb 2 (String.length stripped)
      then Some (strip (slice_from 1 stripped))
      else comment_loop lines'
  end.

Definition _extract_description (content : string) : string :=
  let lines := str_split newline content in
  match docstring_loop lines false [] with
  | inl d => d
  | inr docstring_lines =>
      match docstring_lines with
      | _ :: _ => strip (String.concat " " docstring_lines)
      | [] =>
          match comment_loop lines with
          | Some d => d
          | None => "Python application"
          end
      end
  end.

(** *** [_extract_port] *)

Definition eq_or_space (c : ascii) : bool := Ascii.eqb c "=" || is_space c.
Definition not_rparen (c : ascii) : bool := negb (Ascii.eqb c ")").
Definition dot (c : ascii) : bool := negb (Ascii.eqb c newline).

Definition port_patterns : list pattern :=
  [ mkPattern (lits "port" ++ [Star eq_or_space]) is_digit;
    mkPattern (lits ".run(" ++ [Star not_rparen] ++ lits "port"
               ++ [Star eq_or_space]) is_digit;
    mkPattern (lits "--port" ++ [Star eq_or_space]) is_digit;
    mkPattern (lits "uvicorn" ++ [Star dot] ++ lits ":") is_digit ].

(** The loop over [port_patterns]: the first pattern that matches and
    whose group converts decides; a [ValueError] moves on. *)
Fixpoint port_loop (patterns : list pattern) (content : string) : option Z :=
  match patterns with
  | [] => None
  | p :: patterns' =>
      match re_first p content with
      | Some g =>
          match py_int g with
          | Ok n => Some n
          | Raise _ => port_loop patterns' content
          end
      | None => port_loop patterns' content
      end
  end.

Definition _extract_port (content : string) : option Z :=
  port_loop port_patterns content.

(** *** [_generate_command] *)

(** [app_path.relative_to(self.project_root)] for [app_path] below
    the apps directory *)
Definition relative_app_path (app : app_entry) : string :=
  joinpath "apps" (entry_name app).

Definition module_of (relative_path : string) : string :=
  replace_char "/" "." relative_path.

Definition _generate_command (main_content : string) (app : app_entry)
    (app_type : string) : string :=
  let relative_path := relative_app_path app in
  if str_eq app_type "web" then
    if contains "fastapi" (lower main_content)
    then ("uv run uvicorn " ++ module_of relative_path
          ++ ".main:app --reload")%string
    else ("uv run python -m " ++ module_of relative_path ++ ".main")%string
  else if existsb (str_eq app_type) ["cli"; "tui"; "gui"] then
    ("uv run python -m " ++ module_of relative_path ++ ".main")%string
  else ("uv run python " ++ relative_path ++ "/main.py")%string.

(** *** [_analyze_app] and [_analyze_script]

    Any exception while reading is caught and the candidate skipped.
    [main_file.exists()], which is called before the [try], returns
    here; [Scan._analyze_app] has the call that raises. *)

Definition _analyze_app (self : AppDiscovery) (app : app_entry)
    : option AppInfo :=
  let app_path := joinpath (joinpath (project_root self) "apps")
                    (entry_name app) in
  let main_file := joinpath app_path "main.py" in
  match main_py app with
  | None => None
  | Some (Unreadable _) => None
  | Some (Text content) =>
      let app_type := _determine_app_type content app in
      let description := _extract_description content in
      let command := _generate_command content app app_type in
      let port := if str_eq app_type "web" then _extract_port content
                  else None in
      Some (mkAppInfo (entry_name app) app_path app_type main_file
              description command port)
  end.

(** [PurePath.stem]: the name without its last suffix; a name whose
    only dot comes first or last has no suffix. *)
Definition stem (file : string) : string :=
  match rfind "." file with
  | Some i =>
      if Nat.ltb 0 i && Nat.ltb i (String.length file - 1)
      then String.substring 0 i file
      else file
  | None => file
  end.

Definition _analyze_script (self : AppDiscovery) (script : script_entry)
    : option AppInfo :=
  let scripts_path := joinpath (project_root self) "scripts" in
  match script_text script with
  | Unreadable _ => None
  | Text content =>
      let description := _extract_description content in
      Some (mkAppInfo (stem (file_name script)) scripts_path "script"
              (joinpath scripts_path (file_name script)) description
              ("uv run python " ++ joinpath "scripts" (file_name script))%string
              None)
  end.

(** *** [discover_apps]

    The value of the scan when [exists()], [iterdir()], [is_dir()] and
    [glob()] return; [Scan.discover_apps] has the calls that raise. *)

(** The sort key [(x.type, x.name)] and the order of tuples. *)
Definition key_lt (a b : AppInfo) : bool :=
  str_lt (type a) (type b)
  || (str_eq (type a) (type b) && str_lt (name a) (name b)).

(** [sorted] is stable: an element is placed before the first one that
    is not smaller than it. *)
Fixpoint insert_sorted (x : AppInfo) (l : list AppInfo) : list AppInfo :=
  match l with
  | [] => [x]
  | y :: l' => if key_lt y x then y :: insert_sorted x l' else x :: l
  end.

Definition sorted (l : list AppInfo) : list AppInfo :=
  fold_right insert_sorted [] l.

(** [omap]: the results of [f] that are not [None], in order. *)
Definition collect {A B : Type} (f : A → option B) (l : list A) : list B :=
  flat_map (fun a => match f a with Some b => [b] | None => [] end) l.

(** The first loop of [discover_apps] *)
Definition scan_apps (self : AppDiscovery) (fs : filesystem) : list AppInfo :=
  match apps_dir fs with
  | Some entries =>
      collect (fun app =>
                 if is_dir app && negb (str_eq (entry_name app) "__pycache__")
                 then _analyze_app self app else None) entries
  | None => []
  end.

(** The second loop, over [scripts_dir.glob(pattern)] with the pattern
    [*.py] *)
Definition scan_scripts (self : AppDiscovery) (fs : filesystem)
    : list AppInfo :=
  match scripts_dir fs with
  | Some files =>
      collect (fun script =>
                 if endswith ".py" (file_name script)
                    && negb (str_eq (file_name script) "__init__.py")
                 then _analyze_script self script else None) files
  | None => []
  end.

Definition discover_apps (self : AppDiscovery) (fs : filesystem)
    : list AppInfo :=
  sorted (scan_apps self fs ++ scan_scripts self fs).

(** *** Notions used by the properties *)

Definition occurs_ci (m s : string) : Prop :=
  ∃ pre mid post, s = (pre ++ mid ++ post)%string ∧ lower mid = lower m.

Definition key_cmp (a b : AppInfo) : comparison :=
  match String.compare (type a) (type b) with
  | Eq => String.compare (name a) (name b)
  | c => c
  end.

(** [a] does not come after [b] *)
Definition key_le (a b : AppInfo) : Prop := key_lt b a = false.

Definition scripts_path (self : AppDiscovery) : string :=
  joinpath (project_root self) "scripts".

(** The descriptor was built by [_analyze_script]. *)
Definition from_scripts (self : AppDiscovery) (d : AppInfo) : Prop :=
  path d = scripts_path self.

#[global] Instance from_scripts_dec self d : Decision (from_scripts self d) :=
  String.eq_dec (path d) (scripts_path self).

Definition demo_discovery : AppDiscovery := mkAppDiscovery "/repo".

Definition same_name_fs : filesystem :=
  mkFilesystem
    (Some [mkAppEntry "tool" true (Some (Text "import typer")) false false])
    (Some [mkScriptEntry "tool.py" (Text "print(1)")]).

Definition port_8000_fs : filesystem :=
  mkFilesystem
    (Some [mkAppEntry "api" true
             (Some (Text ("from fastapi import FastAPI" ++ String newline
                            "uvicorn.run(app, port=8000)")%string))
             false false])
    None.

Definition port_zero_fs : filesystem :=
  mkFilesystem
    (Some [mkAppEntry "api" true
             (Some (Text ("from fastapi import FastAPI" ++ String newline
                            "uvicorn.run(app, port=0)")%string))
             false false])
    None.

(** *** Further notions used by the properties *)

(** The five values of [AppInfo.type]. *)
Definition categories : list string := ["web"; "cli"; "tui"; "gui"; "script"].

(** One of [markers] occurs in [content], in any case. *)
Definition marked (markers : list string) (content : string) : Prop :=
  ∃ m, m ∈ markers ∧ occurs_ci m content.

(** Every character of [s] satisfies [p]. *)
Fixpoint all_chars (p : ascii → bool) (s : string) : bool :=
  match s with
  | EmptyString => true
  | String c s' => p c && all_chars p s'
  end.

(** [c] is an ASCII character. *)
Definition is_ascii (c : ascii) : bool := Nat.ltb (code c) 128.


(** The two descriptors of [same_name_fs]. *)
Definition tool_app : AppInfo :=
  mkAppInfo "tool" "/repo/apps/tool" "cli" "/repo/apps/tool/main.py"
    "Python application" "uv run python -m apps.tool.main" None.

Definition tool_script : AppInfo :=
  mkAppInfo "tool" "/repo/scripts" "script" "/repo/scripts/tool.py"
    "Python application" "uv run python scripts/tool.py" None.

End Discovery.

(** ** The scan and the calls that raise

    In [Discovery] every call on the file system that [discover_apps]
    and [_analyze_app] make outside a [try] returns.  Here each call
    has its outcome: [exists()], [iterdir()], [is_dir()] and [glob()]
    return or raise, and an exception raised outside a [try] ends the
    scan.  The report that an [except] handler prints on the console
    is taken to return, and the second [read_text()] of [main.py], in
    [_generate_command], to give the text of the first.  The
    functions that make no such call are those of [Discovery]. *)

Module Scan.
Import Discovery.

(** What the calls made on one entry of [apps_dir.iterdir()] give.
    [app_path.is_dir()] and [main_file.exists()] are called outside
    every [try]; [main_file.read_text()] and the two [exists()] of
    [_determine_app_type] inside the [try] of [_analyze_app]. *)
Record app_calls : Type := mkAppCalls {
  app_name : string;
  app_is_dir : result bool;
  main_exists : result bool;
  main_text : read_text;
  templates_exists : result bool;
  static_exists : result bool
}.

(** What the calls made on the two directories give.  [scripts_glob]
    has every entry of the scripts directory; the loop keeps those
    whose name matches the pattern. *)
Record tree : Type := mkTree {
  apps_exists : result bool;
  apps_iterdir : result (list app_calls);
  scripts_exists : result bool;
  scripts_glob : result (list script_entry)
}.

Definition _determine_app_type (content : string) (app : app_calls)
    : result string :=
  let content_lower := lower content in
  if any_in tui_markers content_lower then Ok "tui"
  else if any_in gui_markers content_lower then Ok "gui"
  else if any_in cli_markers content_lower then Ok "cli"
  else if any_in web_markers content_lower then Ok "web"
  else
    t ← templates_exists app;
    s ← (if t : bool then Ok true else static_exists app);
    if s : bool then Ok "web" else Ok "script".

(** The value of a call that returns. *)
Definition returned (r : result bool) : bool :=
  match r with
  | Ok b => b
  | Raise _ => false
  end.

(** The entry as [Discovery] has it: an exception raised inside the
    [try] of [_analyze_app] reads as a [main.py] that cannot be read. *)
Definition observed_text (app : app_calls) : read_text :=
  match main_text app with
  | Unreadable e => Unreadable e
  | Text content =>
      match _determine_app_type content app with
      | Ok _ => Text content
      | Raise e => Unreadable e
      end
  end.

Definition observed_entry (app : app_calls) : app_entry :=
  mkAppEntry (app_name app) (returned (app_is_dir app))
    (if returned (main_exists app) then Some (observed_text app) else None)
    (returned (templates_exists app)) (returned (static_exists app)).

(** [try: ... except Exception: return None] *)
Definition caught {A : Type} (r : result (option A)) : option A :=
  match r with
  | Ok a => a
  | Raise _ => None
  end.

(** [_analyze_app]: [main_file.exists()] comes before the [try]; what
    is raised inside the [try] is caught and the candidate skipped.
    [_generate_command] uses the name of the entry only. *)
Definition _analyze_app (self : AppDiscovery) (app : app_calls)
    : result (option AppInfo) :=
  let app_path := joinpath (joinpath (project_root self) "apps")
                    (app_name app) in
  let main_file := joinpath app_path "main.py" in
  e ← main_exists app;
  if negb e then Ok None
  else
    Ok (caught
          (match main_text app with
           | Unreadable e => Raise e
           | Text content =>
               app_type ← _determine_app_type content app;
               let description := _extract_description content in
               let command :=
                 _generate_command content (observed_entry app) app_type in
               let port := if str_eq app_type "web"
                           then _extract_port content else None in
               Ok (Some (mkAppInfo (app_name app) app_path app_type
                           main_file description command port))
           end)).

(** The first loop of [discover_apps]: the first call that raises ends
    the scan. *)
Fixpoint scan_apps_loop (self : AppDiscovery) (entries : list app_calls)
    : result (list AppInfo) :=
  match entries with
  | [] => Ok []
  | app :: entries' =>
      d ← app_is_dir app;
      app_info ← (if d && negb (str_eq (app_name app) "__pycache__")
                  then _analyze_app self app else Ok None);
      apps ← scan_apps_loop self entries';
      Ok (match app_info with
          | Some a => a :: apps
          | None => apps
          end)
  end.

Definition scan_apps (self : AppDiscovery) (t : tree)
    : result (list AppInfo) :=
  e ← apps_exists t;
  if e : bool then entries ← apps_iterdir t; scan_apps_loop self entries
  else Ok [].

Definition scan_scripts (self : AppDiscovery) (t : tree)
    : result (list AppInfo) :=
  e ← scripts_exists t;
  if e : bool then
    files ← scripts_glob t;
    Ok (collect (fun script =>
                   if endswith ".py" (file_name script)
                      && negb (str_eq (file_name script) "__init__.py")
                   then _analyze_script self script else None) files)
  else Ok [].

Definition discover_apps (self : AppDiscovery) (t : tree)
    : result (list AppInfo) :=
  apps ← scan_apps self t;
  scripts ← scan_scripts self t;
  Ok (sorted (apps ++ scripts)).

(** *** Notions used by the properties *)

Definition returns {A : Type} (r : result A) : bool :=
  match r with
  | Ok _ => true
  | Raise _ => false
  end.

(** The calls outside every [try] that the scan makes on one entry
    return. *)
Definition entry_calls_return (app : app_calls) : bool :=
  match app_is_dir app with
  | Ok d =>
      if d && negb (str_eq (app_name app) "__pycache__")
      then returns (main_exists app) else true
  | Raise _ => false
  end.

Definition apps_calls_return (t : tree) : bool :=
  match apps_exists t with
  | Ok true =>
      match apps_iterdir t with
      | Ok entries => forallb entry_calls_return entries
      | Raise _ => false
      end
  | Ok false => true
  | Raise _ => false
  end.

Definition scripts_calls_return (t : tree) : bool :=
  match scripts_exists t with
  | Ok true => returns (scripts_glob t)
  | Ok false => true
  | Raise _ => false
  end.

(** Every call outside a [try] that the scan makes returns. *)
Definition calls_return (t : tree) : bool :=
  apps_calls_return t && scripts_calls_return t.

(** The file system as [Discovery] has it. *)
Definition observed (t : tree) : filesystem :=
  mkFilesystem
    (if returned (apps_exists t)
     then Some (match apps_iterdir t with
                | Ok entries => map observed_entry entries
                | Raise _ => []
                end)
     else None)
    (if returned (scripts_exists t)
     then Some (match scripts_glob t with
                | Ok files => files
                | Raise _ => []
                end)
     else None).

(** [same_name_fs] with the outcome of every call, and the same with a
    second directory on which [is_dir()] raises. *)
Definition tool_calls : app_calls :=
  mkAppCalls "tool" (Ok true) (Ok true) (Text "import typer")
    (Ok false) (Ok false).

Definition locked_calls : app_calls :=
  mkAppCalls "locked" (Raise PermissionError) (Raise PermissionError)
    (Unreadable PermissionError) (Raise PermissionError)
    (Raise PermissionError).

Definition same_name_tree : tree :=
  mkTree (Ok true) (Ok [tool_calls])
    (Ok true) (Ok [mkScriptEntry "tool.py" (Text "print(1)")]).

Definition locked_tree : tree :=
  mkTree (Ok true) (Ok [tool_calls; locked_calls])
    (Ok true) (Ok [mkScriptEntry "tool.py" (Text "print(1)")]).

End Scan.

(** ** ConfigManager *)

Module Config.

(** Addresses of dictionary objects. *)
Definition loc := positive.

(** Python values as a configuration holds them.  A dictionary is a
    reference into the store; every other value is immutable here. *)
#[warnings="-register-all"]
Inductive value : Type :=
| VNone
| VBool (b : bool)
| VInt (n : Z)
| VStr (s : string)
| VList (items : list value)
| VDict (l : loc).

(** The store: every dictionary object, by address. *)
Abbreviation heap := (gmap loc (gmap string value)).

Record ConfigManager : Type := mkConfigManager {
  config_file : string;
  _config : loc
}.

(** The dictionary object at [l] (empty if [l] was never allocated). *)
Definition deref (h : heap) (l : loc) : gmap string value := default ∅ (h !! l).

(** [isinstance(value, dict)] *)
Definition isinstance_dict (v : value) : bool :=
  match v with VDict _ => true | _ => false end.

(** [k in d] for a dictionary object *)
Definition dict_contains (h : heap) (l : loc) (k : string) : bool :=
  match deref h l !! k with
  | Some _ => true
  | None => false
  end.

(** [d[k]] *)
Definition dict_getitem (h : heap) (l : loc) (k : string) : result value :=
  match deref h l !! k with
  | Some v => Ok v
  | None => Raise KeyError
  end.

(** [d[k] = v] *)
Definition dict_setitem (h : heap) (l : loc) (k : string) (v : value) : heap :=
  <[l := <[k := v]> (deref h l)]> h.

(** [del d[k]] *)
Definition dict_delitem (h : heap) (l : loc) (k : string) : result heap :=
  match deref h l !! k with
  | Some _ => Ok (<[l := delete k (deref h l)]> h)
  | None => Raise KeyError
  end.

(** [{}]: a new, empty dictionary object *)
Definition new_dict (h : heap) : heap * loc :=
  let l := fresh (dom h) in (<[l := ∅]> h, l).

(** The loop of [get]:
<<
    for k in keys:
        if isinstance(value, dict) and k in value:
            value = value[k]
        else:
            return default
    return value
>> *)
Fixpoint get_loop (h : heap) (value : value) (keys : list string)
    (default : Config.value) : result Config.value :=
  match keys with
  | [] => Ok value
  | k :: keys' =>
      match value with
      | VDict l =>
          if dict_contains h l k then
            value' ← dict_getitem h l k;
            get_loop h value' keys' default
          else Ok default
      | _ => Ok default
      end
  end.

Definition get (h : heap) (self : ConfigManager) (key : string)
    (default : value) : result value :=
  let keys := str_split "." key in
  get_loop h (VDict (_config self)) keys default.

(** [config = config[k]] where [config] is used as a dictionary next. *)
Definition as_dict (v : value) : result loc :=
  match v with
  | VDict l => Ok l
  | _ => Raise TypeError
  end.

(** [config[k] = {}] *)
Definition assign_new_dict (h : heap) (config : loc) (k : string) : heap :=
  let '(h', l) := new_dict h in dict_setitem h' config k (VDict l).

(** [k not in config or not isinstance(config[k], dict)]; the subscript
    is evaluated only when the first test fails. *)
Definition not_a_dict_at (h : heap) (config : loc) (k : string)
    : result bool :=
  if negb (dict_contains h config k) then Ok true
  else
    v ← dict_getitem h config k;
    Ok (negb (isinstance_dict v)).

(** The loop of [set] over [keys[:-1]]:
<<
    for k in keys[:-1]:
        if k not in config or not isinstance(config[k], dict):
            config[k] = {}
        config = config[k]
>> *)
Fixpoint set_loop (h : heap) (config : loc) (keys : list string)
    : result (heap * loc) :=
  match keys with
  | [] => Ok (h, config)
  | k :: keys' =>
      b ← not_a_dict_at h config k;
      let h1 := if b : bool then assign_new_dict h config k else h in
      v ← dict_getitem h1 config k;
      config' ← as_dict v;
      set_loop h1 config' keys'
  end.

(** [keys[-1]] *)
Definition last_key (keys : list string) : result string :=
  match List.rev keys with
  | k :: _ => Ok k
  | [] => Raise IndexError
  end.

Definition set (h : heap) (self : ConfigManager) (key : string)
    (v : value) : result heap :=
  let keys := str_split "." key in
  '(h1, config) ← set_loop h (_config self) (removelast keys);
  k ← last_key keys;
  Ok (dict_setitem h1 config k v).

(** The loop of [delete]; [None] stands for the early [return]. *)
Fixpoint delete_loop (h : heap) (config : loc) (keys : list string)
    : result (option loc) :=
  match keys with
  | [] => Ok (Some config)
  | k :: keys' =>
      b ← not_a_dict_at h config k;
      if b : bool then Ok None
      else
        v ← dict_getitem h config k;
        config' ← as_dict v;
        delete_loop h config' keys'
  end.

Definition delete (h : heap) (self : ConfigManager) (key : string)
    : result heap :=
  let keys := str_split "." key in
  r ← delete_loop h (_config self) (removelast keys);
  match r with
  | None => Ok h
  | Some config =>
      k ← last_key keys;
      if dict_contains h config k then dict_delitem h config k else Ok h
  end.

(** *** [load_json_config] and [load] *)

(** A parsed JSON text. *)
#[warnings="-register-all"]
Inductive json : Type :=
| JNull
| JBool (b : bool)
| JNum (n : Z)
| JStr (s : string)
| JArr (elements : list json)
| JObj (members : list (string * json)).

(** The Python value [json.load] builds for a parsed text: every
    object becomes a new dictionary, a repeated member name keeps its
    last value. *)
Definition alloc_elements (alloc : heap → json → heap * value) :=
  fix elems (h : heap) (js : list json) : heap * list value :=
    match js with
    | [] => (h, [])
    | j :: js' =>
        let '(h1, v) := alloc h j in
        let '(h2, vs) := elems h1 js' in
        (h2, v :: vs)
    end.

Definition alloc_members (alloc : heap → json → heap * value) :=
  fix membs (h : heap) (d : gmap string value) (ms : list (string * json))
      : heap * gmap string value :=
    match ms with
    | [] => (h, d)
    | (k, j) :: ms' =>
        let '(h1, v) := alloc h j in
        membs h1 (<[k := v]> d) ms'
    end.

Fixpoint alloc (h : heap) (j : json) {struct j} : heap * value :=
  match j with
  | JNull => (h, VNone)
  | JBool b => (h, VBool b)
  | JNum n => (h, VInt n)
  | JStr s => (h, VStr s)
  | JArr elements =>
      let '(h', vs) := alloc_elements alloc h elements in
      (h', VList vs)
  | JObj members =>
      let '(h', d) := alloc_members alloc h ∅ members in
      let l := fresh (dom h') in
      (<[l := d]> h', VDict l)
  end.

(** What opening and parsing the file gives: the members of the
    top-level object, or the exception [open] or [json.load] raises.
    The document is a [Dict[str, Any]], as [load_json_config]
    declares it; JSON numbers are integers here. *)
Inductive read_outcome : Type :=
| Parsed (members : list (string * json))
| ReadRaises (e : exn).

(** What one [load()] observes of the configuration file: the answer of
    [exists()] in [load], its answer in [load_json_config], and the
    outcome of reading. *)
Record file_view : Type := mkFileView {
  exists_in_load : bool;
  exists_in_load_json_config : bool;
  read : read_outcome
}.

Definition load_json_config (f : file_view) (h : heap)
    : result (heap * value) :=
  if negb (exists_in_load_json_config f) then Raise FileNotFoundError
  else
    match read f with
    | Parsed members => Ok (alloc h (JObj members))
    | ReadRaises e => Raise e
    end.

Definition with_config (self : ConfigManager) (l : loc) : ConfigManager :=
  mkConfigManager (config_file self) l.

Definition load (f : file_view) (h : heap) (self : ConfigManager)
    : result (heap * ConfigManager) :=
  if exists_in_load f then
    match load_json_config f h with
    | Ok (h', v) =>
        l ← as_dict v;
        Ok (h', with_config self l)
    | Raise JSONDecodeError | Raise FileNotFoundError =>
        let '(h', l) := new_dict h in
        Ok (h', with_config self l)
    | Raise e => Raise e
    end
  else Ok (h, self).

(** [ConfigManager(config_file)]: an empty dictionary, then [load()]. *)
Definition __init__ (f : file_view) (h : heap) (file : string)
    : result (heap * ConfigManager) :=
  let '(h', l) := new_dict h in
  load f h' (mkConfigManager file l).

(** *** Shapes of a store

    [resolve h c p] follows the key path [p] from the dictionary [c]
    through dictionaries only. *)
Fixpoint resolve (h : heap) (c : loc) (p : list string) : option loc :=
  match p with
  | [] => Some c
  | k :: p' =>
      match deref h c !! k with
      | Some (VDict l) => resolve h l p'
      | _ => None
      end
  end.

(** The value stored under the key path [p], if the path resolves. *)
Definition path_value (h : heap) (c : loc) (p : list string) : option value :=
  match List.rev p with
  | [] => Some (VDict c)
  | k :: rinit =>
      match resolve h c (List.rev rinit) with
      | Some l => deref h l !! k
      | None => None
      end
  end.

(** No dictionary entry refers to an address outside the store. *)
Definition closed (h : heap) : Prop :=
  ∀ l k l', deref h l !! k = Some (VDict l') → l' ∈ dom h.

(** The store is well formed for a document rooted at [c]. *)
Definition wf (h : heap) (c : loc) : Prop := c ∈ dom h ∧ closed h.

(** No dictionary below [c] contains itself, at any depth. *)
Definition acyclic_from (h : heap) (c : loc) : Prop :=
  ∀ p q l, resolve h c p = Some l → resolve h l q = Some l → q = [].

(** The document below [c] is a tree: no dictionary object is reached
    by two different key paths. *)
Definition tree_from (h : heap) (c : loc) : Prop :=
  ∀ p q l, resolve h c p = Some l → resolve h c q = Some l → p = q.

(** *** Relations between two stores, for the proofs *)

Definition not_dict_cell (h : heap) (c : loc) (k : string) : Prop :=
  match deref h c !! k with
  | Some v => isinstance_dict v = false
  | None => True
  end.

Definition keeps_dicts (h h1 : heap) : Prop :=
  ∀ l k l', deref h l !! k = Some (VDict l') → deref h1 l !! k = Some (VDict l').

Definition news_fresh (h h1 : heap) : Prop :=
  ∀ l k l', deref h1 l !! k = Some (VDict l') →
    deref h l !! k = Some (VDict l') ∨ l' ∉ dom h.

Definition off_path (h : heap) (c : loc) (ks : list string) (l : loc) : Prop :=
  ∀ p, p `prefix_of` ks → resolve h c p ≠ Some l.

Definition set_keys (h : heap) (c : loc) (init : list string) (k : string)
    (v : value) : result heap :=
  '(h1, c1) ← set_loop h c init; Ok (dict_setitem h1 c1 k v).

(** [h'] is [h] with entries removed. *)
Definition thinned (h h' : heap) : Prop :=
  ∀ l k, deref h' l !! k = deref h l !! k ∨ deref h' l !! k = None.

(** documents whose root holds no dictionary *)
Definition flat (d : gmap string value) : Prop :=
  ∀ k v, d !! k = Some v → isinstance_dict v = false.

(** *** Sample states *)

Definition missing_file : file_view :=
  mkFileView false false (ReadRaises FileNotFoundError).

(** *** Further notions used by the properties *)

(** Dictionaries outside [h] refer, in [h1], to dictionaries outside [h]. *)
Definition new_stays_new (h h1 : heap) : Prop :=
  ∀ x k l, x ∉ dom h → deref h1 x !! k = Some (VDict l) → l ∉ dom h.

(** [to_dict]: [self._config.copy()], a new dictionary with the entries
    of the root; the values, nested dictionaries included, are shared. *)
Definition to_dict (h : heap) (self : ConfigManager) : heap * loc :=
  let l := fresh (dom h) in (<[l := deref h (_config self)]> h, l).

(** [h'] has every dictionary of [h], unchanged. *)
Definition extends (h h' : heap) : Prop := ∀ l, l ∈ dom h → h' !! l = h !! l.

(** The member named [k] of a JSON object; the last one wins. *)
Fixpoint json_member (ms : list (string * json)) (k : string) : option json :=
  match ms with
  | [] => None
  | (k', j) :: ms' =>
      match json_member ms' k with
      | Some j' => Some j'
      | None => if String.eqb k k' then Some j else None
      end
  end.

(** The part of a JSON text under a path of member names. *)
Fixpoint json_path (j : json) (keys : list string) : option json :=
  match keys with
  | [] => Some j
  | k :: keys' =>
      match j with
      | JObj ms =>
          match json_member ms k with
          | Some j' => json_path j' keys'
          | None => None
          end
      | _ => None
      end
  end.

(** The Python value has the kind and, for a scalar, the content of
    the JSON value. *)
Definition same_shape (v : value) (j : json) : Prop :=
  match j with
  | JNull => v = VNone
  | JBool b => v = VBool b
  | JNum n => v = VInt n
  | JStr s => v = VStr s
  | JArr _ => ∃ vs, v = VList vs
  | JObj _ => ∃ l, v = VDict l
  end.

(** What [get_loop] finds below a value built from [j]. *)
Definition reads_as (h : heap) (v : value) (j : json) : Prop :=
  ∀ h' keys d, extends h h' →
    match json_path j keys with
    | None => get_loop h' v keys d = Ok d
    | Some j' => ∃ v', get_loop h' v keys d = Ok v' ∧ same_shape v' j'
    end.

(** Allocation only adds dictionaries, and its value reads as [j]. *)
Definition alloc_reads (j : json) : Prop :=
  ∀ h h' v, alloc h j = (h', v) → extends h h' ∧ reads_as h' v j.

(** What happens after [to_dict]: a call on the manager that changes
    the document, or the caller building a new dictionary with the
    entries [d], to pass it to [set] later. *)
Inductive update : Type :=
| USet (key : string) (v : value)
| UDelete (key : string)
| UBuild (d : gmap string value).

Definition apply_update (h : heap) (self : ConfigManager) (u : update)
    : result heap :=
  match u with
  | USet key v => set h self key v
  | UDelete key => delete h self key
  | UBuild d => Ok (<[fresh (dom h) := d]> h)
  end.

(** The steps of [us], one after the other. *)
Fixpoint apply_updates (h : heap) (self : ConfigManager) (us : list update)
    : result heap :=
  match us with
  | [] => Ok h
  | u :: us' => h' ← apply_update h self u; apply_updates h' self us'
  end.

(** The step does not hand the dictionary [copy] to the manager: a
    dictionary that is stored, or put into a new dictionary, is
    another dictionary of the store. *)
Definition keeps_out (h : heap) (copy : loc) (u : update) : Prop :=
  match u with
  | USet _ (VDict l) => l ∈ dom h ∧ l ≠ copy
  | UBuild d => ∀ k l, d !! k = Some (VDict l) → l ∈ dom h ∧ l ≠ copy
  | _ => True
  end.

(** Every step of [us] keeps [copy] out, in the store it runs in. *)
Fixpoint all_keep_out (h : heap) (self : ConfigManager) (copy : loc)
    (us : list update) : Prop :=
  match us with
  | [] => True
  | u :: us' =>
      keeps_out h copy u ∧
      ∀ h', apply_update h self u = Ok h' → all_keep_out h' self copy us'
  end.

(** No dictionary of the store holds the dictionary [copy]. *)
Definition held_nowhere (h : heap) (copy : loc) : Prop :=
  ∀ l k, deref h l !! k ≠ Some (VDict copy).

(** The manager rooted at [c] and the dictionary [copy] are apart. *)
Definition apart (h : heap) (c copy : loc) : Prop :=
  wf h c ∧ copy ∈ dom h ∧ copy ≠ c ∧ held_nowhere h copy.

End Config.

(** ** Process supervision *)

Module Runner.
Import Discovery.

Definition pid := positive.

(** [poll()] is [None] for [Alive]; an exited child remembers how. *)
Inductive pstatus : Type :=
| Alive
| Terminated
| Killed
| ExitedByItself.

(** A child process: the descriptor name it was started for, its
    argument vector, its status. *)
Record process : Type := mkProcess {
  owner : string;
  argv : list string;
  status : pstatus
}.

(** The operating system as the runner meets it: the children spawned
    so far, which argument vectors can be spawned, and which programs
    outlive [terminate()] for longer than the timeout. *)
Record os : Type := mkOs {
  procs : gmap pid process;
  launchable : list string → bool;
  stubborn : list string → bool
}.

Record AppRunner : Type := mkAppRunner {
  project_root : string;
  running_processes : gmap string pid
}.

Definition with_procs (w : os) (ps : gmap pid process) : os :=
  mkOs ps (launchable w) (stubborn w).

Definition with_running (self : AppRunner) (r : gmap string pid)
    : AppRunner :=
  mkAppRunner (project_root self) r.

(** [subprocess.Popen(cmd_parts, ...)] *)
Definition Popen (w : os) (name : string) (cmd_parts : list string)
    : result (os * pid) :=
  if launchable w cmd_parts then
    let p := fresh (dom (procs w)) in
    Ok (with_procs w (<[p := mkProcess name cmd_parts Alive]> (procs w)), p)
  else Raise FileNotFoundError.

(** [run_app]: every exception of the body becomes a [RuntimeError]. *)
Definition run_app (w : os) (self : AppRunner) (app_info : AppInfo)
    : result (os * AppRunner * pid) :=
  let cmd_parts := split_ws (command app_info) in
  match Popen w (name app_info) cmd_parts with
  | Ok (w', process) =>
      Ok (w',
          with_running self
            (<[name app_info := process]> (running_processes self)),
          process)
  | Raise _ => Raise RuntimeError
  end.

Definition set_status (w : os) (p : pid) (st : pstatus) : os :=
  with_procs w (alter (fun pr => mkProcess (owner pr) (argv pr) st) p (procs w)).

Definition is_alive (w : os) (p : pid) : bool :=
  match procs w !! p with
  | Some pr => match status pr with Alive => true | _ => false end
  | None => false
  end.

(** [process.terminate(); process.wait(timeout=5)], and on
    [TimeoutExpired] [process.kill(); process.wait()]. *)
Definition terminate_then_kill (w : os) (p : pid) : os :=
  match procs w !! p with
  | Some pr =>
      match status pr with
      | Alive =>
          if stubborn w (argv pr) then set_status w p Killed
          else set_status w p Terminated
      | _ => w
      end
  | None => w
  end.

Definition stop_app (w : os) (self : AppRunner) (app_name : string)
    : result (os * AppRunner * bool) :=
  match running_processes self !! app_name with
  | Some process =>
      let w' := terminate_then_kill w process in
      Ok (w', with_running self (delete app_name (running_processes self)),
          true)
  | None => Ok (w, self, false)
  end.

Definition is_running (w : os) (self : AppRunner) (app_name : string)
    : bool :=
  match running_processes self !! app_name with
  | Some process => is_alive w process
  | None => false
  end.

(** *** Sequences of operations *)

Inductive op : Type :=
| Start (app_info : AppInfo)
| Stop (app_name : string)
| ChildExits (p : pid).

(** One operation; an exception leaves the state as it was. *)
Definition step (st : os * AppRunner) (o : op) : os * AppRunner :=
  let '(w, self) := st in
  match o with
  | Start app_info =>
      match run_app w self app_info with
      | Ok (w', self', _) => (w', self')
      | Raise _ => st
      end
  | Stop app_name =>
      match stop_app w self app_name with
      | Ok (w', self', _) => (w', self')
      | Raise _ => st
      end
  | ChildExits p =>
      if is_alive w p then (set_status w p ExitedByItself, self) else st
  end.

Definition run (st : os * AppRunner) (ops : list op) : os * AppRunner :=
  fold_left step ops st.

(** The children started for [app_name] that have not exited. *)
Definition live_for (w : os) (app_name : string) : list pid :=
  List.filter (fun p => is_alive w p
                   && match procs w !! p with
                      | Some pr => str_eq (owner pr) app_name
                      | None => false
                      end)
    (List.map fst (map_to_list (procs w))).

(** Every registered handle is a child started for that name. *)
Definition handles_owned (st : os * AppRunner) : Prop :=
  ∀ app_name p, running_processes st.2 !! app_name = Some p →
    ∃ pr, procs st.1 !! p = Some pr ∧ owner pr = app_name.

(** *** Sample states *)

Definition initial (w : os) (root : string) : os * AppRunner :=
  (with_procs w ∅, mkAppRunner root ∅).

Definition demo_os : os := mkOs ∅ (fun _ => true) (fun _ => false).

Definition demo_app : AppInfo :=
  mkAppInfo "web" "/repo/apps/web" "web" "/repo/apps/web/main.py"
    "Python application" "uv run uvicorn apps.web.main:app --reload" None.

End Runner.

(** * Properties *)

Module ConfigFacts.
Import Config.

Lemma str_split_not_nil sep s : str_split sep s ≠ [].
Proof.
  destruct s as [|c s]; simpl; [done|].
  destruct (Ascii.eqb c sep); [done|].
  by destruct (str_split sep s).
Qed.

Lemma str_split_snoc sep s : ∃ init k, str_split sep s = init ++ [k].
Proof.
  destruct (str_split sep s) as [|x l] eqn:E using rev_ind.
  - by apply str_split_not_nil in E.
  - eauto.
Qed.

Lemma last_key_snoc init k : last_key (init ++ [k]) = Ok k.
Proof. unfold last_key. by rewrite rev_app_distr. Qed.

Lemma deref_insert_eq (h : heap) l d : deref (<[l := d]> h) l = d.
Proof. unfold deref. by rewrite lookup_insert_eq. Qed.

Lemma deref_insert_ne (h : heap) l l' d :
  l ≠ l' → deref (<[l := d]> h) l' = deref h l'.
Proof. intros. unfold deref. by rewrite lookup_insert_ne. Qed.

Lemma deref_Some_dom (h : heap) l k v : deref h l !! k = Some v → l ∈ dom h.
Proof.
  unfold deref. intros H. apply elem_of_dom.
  destruct (h !! l); [eauto|]. simpl in H. by rewrite lookup_empty in H.
Qed.

Lemma deref_setitem_eq h l k v : deref (dict_setitem h l k v) l !! k = Some v.
Proof. unfold dict_setitem. by rewrite deref_insert_eq, lookup_insert_eq. Qed.

Lemma deref_setitem_ne_key h l k k' v :
  k ≠ k' → deref (dict_setitem h l k v) l !! k' = deref h l !! k'.
Proof. intros. unfold dict_setitem. by rewrite deref_insert_eq, lookup_insert_ne. Qed.

Lemma deref_setitem_ne_loc h l l' k v :
  l ≠ l' → deref (dict_setitem h l k v) l' = deref h l'.
Proof. intros. unfold dict_setitem. by rewrite deref_insert_ne. Qed.

Lemma dom_setitem h l k v : dom (dict_setitem h l k v) = {[l]} ∪ dom h.
Proof. unfold dict_setitem. by rewrite dom_insert_L. Qed.

Lemma fresh_not_dom (h : heap) : fresh (dom h) ∉ dom h.
Proof. apply is_fresh. Qed.

(** **** One step of the [set] loop *)

Lemma set_loop_cons_dict h c k ks l' :
  deref h c !! k = Some (VDict l') →
  set_loop h c (k :: ks) = set_loop h l' ks.
Proof.
  intros E. simpl. unfold not_a_dict_at, dict_contains, dict_getitem.
  rewrite E. simpl. unfold dict_getitem. by rewrite E.
Qed.

Lemma cell_cases h c k :
  (∃ l', deref h c !! k = Some (VDict l')) ∨ not_dict_cell h c k.
Proof.
  unfold not_dict_cell. destruct (deref h c !! k) as [[]|]; eauto.
Qed.

Lemma set_loop_cons_fresh h c k ks :
  not_dict_cell h c k →
  set_loop h c (k :: ks) =
    set_loop (assign_new_dict h c k) (fresh (dom h)) ks.
Proof.
  unfold not_dict_cell. intros E. simpl.
  assert (not_a_dict_at h c k = Ok true) as ->.
  { unfold not_a_dict_at, dict_contains, dict_getitem.
    destruct (deref h c !! k); simpl; [by rewrite E|done]. }
  simpl. unfold assign_new_dict, new_dict, dict_getitem.
  by rewrite deref_setitem_eq.
Qed.

Section grown.
Context (h : heap) (c : loc) (k : string).
Hypothesis Hc : c ∈ dom h.
Hypothesis Hclosed : closed h.

Local Abbreviation l' := (fresh (dom h)).
Local Abbreviation g := (assign_new_dict h c k).

Lemma grown_fresh_ne : c ≠ l'.
Proof. intros ->. by apply (fresh_not_dom h). Qed.

Lemma grown_cell : deref g c !! k = Some (VDict l').
Proof. apply deref_setitem_eq. Qed.

Lemma grown_other_key k' : k ≠ k' → deref g c !! k' = deref h c !! k'.
Proof.
  intros. unfold assign_new_dict, new_dict.
  rewrite deref_setitem_ne_key by done.
  rewrite deref_insert_ne; [done|]. intros E. by apply grown_fresh_ne.
Qed.

Lemma grown_new_empty : deref g l' = ∅.
Proof.
  unfold assign_new_dict, new_dict.
  rewrite deref_setitem_ne_loc by apply grown_fresh_ne.
  apply deref_insert_eq.
Qed.

Lemma grown_other_loc l : l ≠ c → l ∈ dom h → g !! l = h !! l.
Proof.
  intros Hl Hd. unfold assign_new_dict, new_dict, dict_setitem.
  rewrite lookup_insert_ne by done.
  rewrite lookup_insert_ne; [done|].
  intros E. apply (fresh_not_dom h). by rewrite E.
Qed.

Lemma grown_dom : dom g = {[c]} ∪ ({[l']} ∪ dom h).
Proof.
  unfold assign_new_dict, new_dict.
  by rewrite dom_setitem, dom_insert_L.
Qed.

Lemma grown_new_dom : l' ∈ dom g.
Proof. rewrite grown_dom. set_solver. Qed.

Lemma grown_dom_mono l : l ∈ dom h → l ∈ dom g.
Proof. rewrite grown_dom. set_solver. Qed.

Lemma grown_dom_inv l : l ∈ dom g → l ≠ c → l ≠ l' → l ∈ dom h.
Proof.
  rewrite grown_dom, !elem_of_union, !elem_of_singleton. tauto.
Qed.

Lemma grown_closed : closed g.
Proof.
  intros l k0 l0 E.
  destruct (decide (l = c)) as [->|Hl].
  - destruct (decide (k = k0)) as [<-|Hk].
    + rewrite grown_cell in E. injection E as <-. apply grown_new_dom.
    + rewrite grown_other_key in E by done.
      apply grown_dom_mono. eapply Hclosed, E.
  - destruct (decide (l = l')) as [->|Hl'].
    + rewrite grown_new_empty in E. by rewrite lookup_empty in E.
    + assert (l ∈ dom h) as Hd.
      { apply deref_Some_dom in E. by apply grown_dom_inv. }
      unfold deref in E. rewrite grown_other_loc in E by done.
      apply grown_dom_mono. eapply Hclosed, E.
Qed.

Lemma grown_wf : wf g l'.
Proof. split; [apply grown_new_dom|apply grown_closed]. Qed.

Lemma grown_resolve_new p l : resolve g l' p = Some l → p = [] ∧ l = l'.
Proof.
  destruct p as [|k0 p]; simpl.
  - intros [= <-]. done.
  - by rewrite grown_new_empty, lookup_empty.
Qed.

Lemma grown_keeps_dicts l k0 l0 :
  deref h l !! k0 = Some (VDict l0) → deref g l !! k0 = Some (VDict l0) ∨ (l = c ∧ k0 = k).
Proof.
  intros E. pose proof (deref_Some_dom _ _ _ _ E) as Hd.
  destruct (decide (l = c)) as [->|Hl].
  - destruct (decide (k = k0)) as [<-|Hk]; [by right|].
    left. by rewrite grown_other_key.
  - left. unfold deref. rewrite grown_other_loc by done. apply E.
Qed.
End grown.

Lemma resolve_app h c p q :
  resolve h c (p ++ q) = resolve h c p ≫= λ l, resolve h l q.
Proof.
  revert c. induction p as [|k p IH]; intros c; simpl; [done|].
  destruct (deref h c !! k) as [[]|]; simpl; auto.
Qed.

Lemma resolve_keeps h h1 c p l :
  keeps_dicts h h1 → resolve h c p = Some l → resolve h1 c p = Some l.
Proof.
  intros K. revert c. induction p as [|k p IH]; intros c; simpl; [done|].
  destruct (deref h c !! k) as [[| | | | |l0]|] eqn:E; try done.
  intros R. rewrite (K _ _ _ E). auto.
Qed.

Lemma set_loop_spec init : ∀ h c, wf h c →
  ∃ h1 c1, set_loop h c init = Ok (h1, c1) ∧
    dom h ⊆ dom h1 ∧ c1 ∈ dom h1 ∧ closed h1 ∧ keeps_dicts h h1 ∧
    news_fresh h h1 ∧
    (∀ l, l ∈ dom h → off_path h c init l → h1 !! l = h !! l) ∧
    resolve h1 c init = Some c1 ∧
    ((h1 = h ∧ resolve h c init = Some c1) ∨
     ((c1 ∉ dom h) ∧ resolve h c init = None ∧
      ∀ p, (p ≠ init) → (p `prefix_of` init) → resolve h1 c p ≠ Some c1)).
Proof.
  induction init as [|k init IH]; intros h c [Hc Hcl].
  - exists h, c. simpl. split_and!; auto; [by intros ???|by intros ???; left].
  - destruct (cell_cases h c k) as [[l' E]|E].
    + rewrite (set_loop_cons_dict _ _ _ _ _ E).
      assert (wf h l') as Hwf by (split; [eapply Hcl, E|done]).
      destruct (IH h l' Hwf) as (h1 & c1 & -> & Hdom & Hc1 & Hcl1 & K & N & F & R & D).
      exists h1, c1. split_and!; auto.
      * intros l Hl Hoff. apply F; [done|].
        intros p Hp Rp. apply (Hoff (k :: p)); [by apply prefix_cons|].
        simpl. by rewrite E.
      * simpl. by rewrite (K _ _ _ E).
      * destruct D as [[-> R0]|(Hn & R0 & P)].
        -- left. simpl. by rewrite E.
        -- right. split_and!; auto.
           ++ simpl. by rewrite E.
           ++ intros p Hp Hpre.
              destruct p as [|k0 p]; simpl.
              { intros [= ->]. done. }
              apply prefix_cons_inv_1 in Hpre as Hk. subst k0.
              apply prefix_cons_inv_2 in Hpre.
              rewrite (K _ _ _ E). apply P; [congruence|done].
    + rewrite (set_loop_cons_fresh _ _ _ _ E).
      pose proof (grown_wf h c k Hc Hcl) as Hwf.
      destruct (IH _ _ Hwf) as (h1 & c1 & -> & Hdom & Hc1 & Hcl1 & K & N & F & R & D).
      exists h1, c1.
      assert (dom h ⊆ dom h1) as Hsub.
      { intros l Hl. apply Hdom. by apply grown_dom_mono. }
      assert (deref h1 c !! k = Some (VDict (fresh (dom h)))) as Ek.
      { apply K. by apply grown_cell. }
      assert (c1 ∉ dom h) as Hnew.
      { destruct D as [[-> R0]|(Hn & _)].
        - apply grown_resolve_new in R0 as [_ ->]; [apply fresh_not_dom|done..].
        - intros ?. apply Hn. by apply grown_dom_mono. }
      split_and!; auto.
      * intros l k0 l0 E0.
        destruct (grown_keeps_dicts h c k Hc l k0 l0 E0) as [G|[-> ->]].
        -- by apply K.
        -- unfold not_dict_cell in E. by rewrite E0 in E.
      * intros l k0 l0 E0. destruct (N _ _ _ E0) as [G|G].
        -- destruct (decide (l0 ∈ dom h)) as [Hd|Hd]; [left|by right].
           destruct (decide (l = c)) as [->|Hl].
           ++ destruct (decide (k = k0)) as [<-|Hk].
              ** rewrite grown_cell in G. injection G as <-.
                 by apply fresh_not_dom in Hd.
              ** by rewrite grown_other_key in G.
           ++ destruct (decide (l = fresh (dom h))) as [->|Hl'].
              ** rewrite grown_new_empty in G by done.
                 by rewrite lookup_empty in G.
              ** assert (l ∈ dom h) as Hld.
                 { apply deref_Some_dom in G.
                   by apply (grown_dom_inv h c k). }
                 unfold deref in G. by rewrite grown_other_loc in G.
        -- right. intros ?. apply G. by apply grown_dom_mono.
      * intros l Hl Hoff.
        assert (l ≠ c) as Hlc.
        { intros ->. by apply (Hoff []); [apply prefix_nil|]. }
        rewrite F; [by apply grown_other_loc|by apply grown_dom_mono|].
        intros p _ Rp. apply grown_resolve_new in Rp as [_ ->]; [|done..].
        by apply fresh_not_dom in Hl.
      * simpl. by rewrite Ek.
      * right. split_and!; auto.
        -- simpl. unfold not_dict_cell in E.
           by destruct (deref h c !! k) as [[]|].
        -- intros p Hp Hpre.
           destruct p as [|k0 p]; simpl.
           { intros [= ->]. done. }
           apply prefix_cons_inv_1 in Hpre as Hk. subst k0.
           apply prefix_cons_inv_2 in Hpre.
           rewrite Ek.
           destruct D as [[-> R0]|(Hn & _ & P)].
           ++ apply grown_resolve_new in R0 as [-> ->]; [|done..].
              apply prefix_nil_inv in Hpre. congruence.
           ++ apply P; [congruence|done].
Qed.

Lemma get_loop_resolve h init : ∀ c c1 k v d,
  resolve h c init = Some c1 → deref h c1 !! k = Some v →
  get_loop h (VDict c) (init ++ [k]) d = Ok v.
Proof.
  induction init as [|k0 init IH]; intros c c1 k v d; simpl.
  - intros [= ->] E. unfold dict_contains, dict_getitem. by rewrite E.
  - unfold dict_contains, dict_getitem.
    destruct (deref h c !! k0) as [[| | | | |l0]|] eqn:E; try done.
    simpl. apply IH.
Qed.

Lemma resolve_setitem_off_path h l k v init : ∀ c c1,
  resolve h c init = Some c1 →
  (∀ p, (p ≠ init) → (p `prefix_of` init) → resolve h c p ≠ Some l) →
  resolve (dict_setitem h l k v) c init = Some c1.
Proof.
  induction init as [|k0 init IH]; intros c c1; simpl; [done|].
  intros R P.
  assert (l ≠ c) as Hl.
  { intros ->. by apply (P []); [|apply prefix_nil|]. }
  rewrite deref_setitem_ne_loc by done.
  destruct (deref h c !! k0) as [[| | | | |l0]|] eqn:E; try done.
  apply IH; [done|]. intros p Hp Hpre Rp.
  apply (P (k0 :: p)); [congruence|by apply prefix_cons|].
  simpl. by rewrite E.
Qed.

Lemma set_unfold h self key v init k :
  str_split "." key = init ++ [k] →
  set h self key v = set_keys h (_config self) init k v.
Proof.
  intros E. unfold set, set_keys. rewrite E, removelast_last.
  destruct (set_loop h (_config self) init) as [[h1 c1]|e]; simpl; [|done].
  by rewrite last_key_snoc.
Qed.

Lemma acyclic_no_revisit h c init c1 p :
  acyclic_from h c → resolve h c init = Some c1 →
  p ≠ init → p `prefix_of` init → resolve h c p ≠ Some c1.
Proof.
  intros A R Hp [q ->] Rp.
  rewrite resolve_app, Rp in R. simpl in R.
  apply (A p q c1) in R; [|done]. subst q. by rewrite app_nil_r in Hp.
Qed.

Lemma set_keys_get h c init k v d :
  wf h c → (acyclic_from h c ∨ resolve h c init = None) →
  ∃ hf, set_keys h c init k v = Ok hf ∧
    get_loop hf (VDict c) (init ++ [k]) d = Ok v.
Proof.
  intros Hwf HA. unfold set_keys.
  destruct (set_loop_spec init h c Hwf)
    as (h1 & c1 & -> & Hdom & Hc1 & Hcl1 & K & N & F & R & D).
  simpl. eexists; split; [done|].
  apply get_loop_resolve with (c1 := c1); [|apply deref_setitem_eq].
  apply resolve_setitem_off_path; [done|].
  destruct D as [[-> R0]|(_ & R0 & P)]; [|done].
  destruct HA as [A|A]; [|congruence].
  intros p ??. by eapply acyclic_no_revisit.
Qed.

Lemma delete_loop_resolve h init : ∀ c,
  delete_loop h c init = Ok (resolve h c init).
Proof.
  induction init as [|k init IH]; intros c; simpl; [done|].
  unfold not_a_dict_at, dict_contains, dict_getitem.
  destruct (deref h c !! k) as [[| | | | |l0]|] eqn:E; simpl; try done.
Qed.

Lemma get_loop_unresolved h init : ∀ c k d,
  resolve h c init = None → get_loop h (VDict c) (init ++ [k]) d = Ok d.
Proof.
  induction init as [|k0 init IH]; intros c k d; simpl; [done|].
  unfold dict_contains, dict_getitem.
  destruct (deref h c !! k0) as [[| | | | |l0]|] eqn:E; simpl;
    try done; try (by destruct init).
  apply IH.
Qed.

Lemma get_loop_thinned h h' init : ∀ c c1 k d,
  thinned h h' → resolve h c init = Some c1 → deref h' c1 !! k = None →
  get_loop h' (VDict c) (init ++ [k]) d = Ok d.
Proof.
  intros c c1 k d T. revert c.
  induction init as [|k0 init IH]; intros c; simpl.
  - intros [= ->] E. unfold dict_contains. by rewrite E.
  - intros R E. unfold dict_contains, dict_getitem.
    destruct (T c k0) as [-> | ->]; [|done].
    destruct (deref h c !! k0) as [[| | | | |l0]|]; try done.
    simpl. by apply IH.
Qed.

Lemma get_after_delete h self key d :
  ∃ h', delete h self key = Ok h' ∧ get h' self key d = Ok d.
Proof.
  destruct (str_split_snoc "." key) as (init & k & E).
  unfold delete, get. rewrite E, removelast_last, delete_loop_resolve.
  simpl. destruct (resolve h (_config self) init) as [c1|] eqn:R.
  - rewrite last_key_snoc. simpl. unfold dict_contains, dict_delitem.
    destruct (deref h c1 !! k) as [x|] eqn:Ek.
    + eexists; split; [done|].
      apply get_loop_thinned with (h := h) (c1 := c1); [|done|].
      * intros l k0. destruct (decide (l = c1)) as [->|Hl].
        -- rewrite deref_insert_eq.
           destruct (decide (k = k0)) as [->|Hk].
           ++ right. apply lookup_delete_eq.
           ++ left. by apply lookup_delete_ne.
        -- left. by rewrite deref_insert_ne.
      * rewrite deref_insert_eq. apply lookup_delete_eq.
    + eexists; split; [done|].
      apply get_loop_thinned with (h := h) (c1 := c1); [|done..].
      intros ??. by left.
  - eexists; split; [done|]. by apply get_loop_unresolved.
Qed.

Lemma get_after_set h self key v d :
  wf h (_config self) → acyclic_from h (_config self) →
  ∃ h', set h self key v = Ok h' ∧ get h' self key d = Ok v.
Proof.
  intros Hwf A.
  destruct (str_split_snoc "." key) as (init & k & E).
  rewrite (set_unfold _ _ _ _ _ _ E). unfold get. rewrite E.
  apply set_keys_get; auto.
Qed.

Lemma path_value_snoc h c pre k :
  path_value h c (pre ++ [k]) =
    match resolve h c pre with Some l => deref h l !! k | None => None end.
Proof. unfold path_value. rewrite rev_app_distr. simpl. by rewrite rev_involutive. Qed.

Lemma resolve_app_Some h c p q l :
  resolve h c (p ++ q) = Some l →
  ∃ m, resolve h c p = Some m ∧ resolve h m q = Some l.
Proof.
  rewrite resolve_app. destruct (resolve h c p) as [m|]; [eauto|done].
Qed.

(** C8.  When a segment [k] of the dotted key, not the last one, holds
    a value [x] that is not a dictionary, [set] does not raise: it
    puts a new dictionary (one that was not in the store) in place of
    [x] and stores the value, so that [get] of the full key returns
    it. *)
Theorem set_through_scalar h self key v d pre k post x :
  wf h (_config self) →
  removelast (str_split "." key) = pre ++ k :: post →
  path_value h (_config self) (pre ++ [k]) = Some x →
  isinstance_dict x = false →
  ∃ h' l, set h self key v = Ok h' ∧ (l ∉ dom h) ∧
    path_value h' (_config self) (pre ++ [k]) = Some (VDict l) ∧
    get h' self key d = Ok v.
Proof.
  intros Hwf Ek Hx Hs.
  destruct (str_split_snoc "." key) as (init & k1 & E).
  rewrite E, removelast_last in Ek. subst init.
  rewrite (set_unfold _ _ _ _ _ _ E). unfold get, set_keys. rewrite E.
  set (c := _config self) in *.
  rewrite path_value_snoc in Hx.
  destruct (resolve h c pre) as [cs|] eqn:Rpre; [|done].
  assert (resolve h c (pre ++ k :: post) = None) as Rnone.
  { rewrite resolve_app, Rpre. simpl. rewrite Hx. by destruct x. }
  destruct (set_loop_spec (pre ++ k :: post) h c Hwf)
    as (h1 & c1 & -> & Hdom & Hc1 & Hcl1 & K & N & F & R & D).
  destruct D as [[_ R0]|(Hnew & _ & P)]; [congruence|].
  simpl.
  apply resolve_app_Some in R as R'. destruct R' as (cs1 & Rpre1 & Rk).
  rewrite (resolve_keeps _ _ _ _ _ K Rpre) in Rpre1. injection Rpre1 as <-.
  simpl in Rk.
  destruct (deref h1 cs !! k) as [[| | | | |l]|] eqn:Ecell; try done.
  assert (cs ≠ c1) as Hne.
  { intros ->. apply Hnew. eapply deref_Some_dom, Hx. }
  exists (dict_setitem h1 c1 k1 v), l. split_and!; [done| | |].
  - destruct (N _ _ _ Ecell) as [G|G]; [|done].
    rewrite G in Hx. injection Hx as <-. done.
  - rewrite path_value_snoc.
    rewrite (resolve_setitem_off_path h1 c1 k1 v pre c cs).
    + by rewrite deref_setitem_ne_loc.
    + by apply (resolve_keeps h).
    + intros p Hp Hpre. apply P.
      * intros ->. destruct Hpre as [q Hq].
        rewrite <- app_assoc in Hq.
        rewrite <- (app_nil_r pre) in Hq at 1. by apply app_inv_head in Hq.
      * by apply prefix_app_r.
  - apply get_loop_resolve with (c1 := c1); [|apply deref_setitem_eq].
    by apply resolve_setitem_off_path.
Qed.

Lemma get_loop_scalar h h' v ks d :
  isinstance_dict v = false → get_loop h' v ks d = get_loop h v ks d.
Proof. by destruct v, ks. Qed.

Lemma get_loop_ext h h' d ks : ∀ x,
  (∀ p l, resolve h x p = Some l → deref h' l = deref h l) →
  get_loop h' (VDict x) ks d = get_loop h (VDict x) ks d.
Proof.
  induction ks as [|k ks IH]; intros x Hx; simpl; [done|].
  unfold dict_contains, dict_getitem. rewrite (Hx [] x eq_refl).
  destruct (deref h x !! k) as [v0|] eqn:E; simpl; [|done].
  destruct (isinstance_dict v0) eqn:Hv; [|by apply get_loop_scalar].
  destruct v0; try done.
  apply IH. intros p l0 R. apply (Hx (k :: p)). simpl. by rewrite E.
Qed.

Lemma tree_from_child h c k l' :
  tree_from h c → deref h c !! k = Some (VDict l') → tree_from h l'.
Proof.
  intros T E p q l Rp Rq.
  assert (k :: p = k :: q) as [= ->]; [|done].
  apply (T _ _ l); simpl; by rewrite E.
Qed.

Lemma tree_acyclic h c : tree_from h c → acyclic_from h c.
Proof.
  intros T p q l Rp Rq.
  assert (p ++ q = p) as Hq.
  { apply (T _ _ l); [|done]. by rewrite resolve_app, Rp. }
  rewrite <- (app_nil_r p) in Hq at 2. by apply app_inv_head in Hq.
Qed.

Lemma resolve_dom h : closed h → ∀ p c l,
  c ∈ dom h → resolve h c p = Some l → l ∈ dom h.
Proof.
  intros Hcl. induction p as [|k p IH]; intros c l Hc; simpl.
  - by intros [= <-].
  - destruct (deref h c !! k) as [[| | | | |l0]|] eqn:E; try done.
    apply IH. eapply Hcl, E.
Qed.

Lemma get_loop_cons_Some h c k ks v d :
  deref h c !! k = Some v →
  get_loop h (VDict c) (k :: ks) d = get_loop h v ks d.
Proof.
  intros E. simpl. unfold dict_contains, dict_getitem. by rewrite E.
Qed.

Lemma get_loop_cons_None h c k ks d :
  deref h c !! k = None → get_loop h (VDict c) (k :: ks) d = Ok d.
Proof. intros E. simpl. unfold dict_contains. by rewrite E. Qed.

Lemma set_keys_frame init1 : ∀ h c keys2 k1 v d hf,
  wf h c → tree_from h c →
  ¬ ((init1 ++ [k1]) `prefix_of` keys2) →
  ¬ (keys2 `prefix_of` (init1 ++ [k1])) →
  set_keys h c init1 k1 v = Ok hf →
  get_loop hf (VDict c) keys2 d = get_loop h (VDict c) keys2 d.
Proof.
  induction init1 as [|a init1 IH]; intros h c keys2 k1 v d hf Hwf T N1 N2 S.
  all: destruct keys2 as [|b bs]; [by destruct N2; apply prefix_nil|].
  all: pose proof (tree_acyclic _ _ T) as A.
  all: destruct Hwf as [Hc Hcl].
  - (* the write lands in [c] itself *)
    injection S as <-.
    assert (k1 ≠ b) as Hb.
    { intros ->. apply N1. by apply prefix_cons, prefix_nil. }
    simpl. unfold dict_contains, dict_getitem.
    rewrite deref_setitem_ne_key by done.
    destruct (deref h c !! b) as [v0|] eqn:E; simpl; [|done].
    destruct (isinstance_dict v0) eqn:Hv; [|by apply get_loop_scalar].
    destruct v0; try done.
    apply get_loop_ext. intros p l0 R.
    apply deref_setitem_ne_loc. intros <-.
    assert (resolve h c (b :: p) = Some c) as R' by (simpl; by rewrite E).
    by apply (A [] _ c) in R'.
  - unfold set_keys in S.
    destruct (cell_cases h c a) as [[l' E]|E].
    + (* the path continues through an existing dictionary *)
      rewrite (set_loop_cons_dict _ _ _ _ _ E) in S.
      assert (wf h l') as Hwf by (split; [eapply Hcl, E|done]).
      assert (∀ q, resolve h l' q ≠ Some c) as Hup.
      { intros q R.
        assert (resolve h c (a :: q) = Some c) as R' by (simpl; by rewrite E).
        by apply (A [] _ c) in R'. }
      destruct (decide (a = b)) as [<-|Hab].
      * (* same first segment: descend *)
        assert (get_loop hf (VDict l') bs d = get_loop h (VDict l') bs d) as G.
        { apply (IH h l' bs k1 v d hf); auto.
          - by eapply tree_from_child.
          - intros P. apply N1. simpl. by apply prefix_cons.
          - intros P. apply N2. simpl. by apply prefix_cons. }
        destruct (set_loop_spec init1 h l' Hwf)
          as (h1 & c1 & S1 & Hdom & Hc1 & Hcl1 & K & N & F & R & D).
        rewrite S1 in S. simpl in S. injection S as <-.
        assert (deref (dict_setitem h1 c1 k1 v) c = deref h c) as Ec.
        { rewrite deref_setitem_ne_loc.
          - unfold deref. rewrite F; [done..|]. intros p _. apply Hup.
          - intros ->. destruct D as [[_ R0]|[Hn _]]; [by apply Hup in R0|done]. }
        simpl. unfold dict_contains, dict_getitem. rewrite Ec, E. simpl.
        apply G.
      * (* different first segment: the read never meets the write *)
        destruct (set_loop_spec init1 h l' Hwf)
          as (h1 & c1 & S1 & Hdom & Hc1 & Hcl1 & K & N & F & R & D).
        rewrite S1 in S. simpl in S. injection S as <-.
        assert (∀ l, l ∈ dom h → (∀ q, resolve h l' q ≠ Some l) →
                  deref (dict_setitem h1 c1 k1 v) l = deref h l) as Same.
        { intros l Hl Hoff. rewrite deref_setitem_ne_loc.
          - unfold deref. rewrite F; [done..|]. intros p _. apply Hoff.
          - intros ->.
            destruct D as [[_ R0]|[Hn _]]; [by apply Hoff in R0|done]. }
        simpl. unfold dict_contains, dict_getitem.
        rewrite (Same c Hc Hup).
        destruct (deref h c !! b) as [v0|] eqn:Eb; simpl; [|done].
        destruct (isinstance_dict v0) eqn:Hv; [|by apply get_loop_scalar].
        destruct v0 as [| | | | |l0]; try done.
        apply get_loop_ext. intros p l R0. apply Same.
        -- eapply (resolve_dom h Hcl p l0); [eapply Hcl, Eb|done].
        -- intros q Rq.
           assert (a :: q = b :: p) as [= ? _]; [|done].
           apply (T _ _ l); simpl; [by rewrite E|by rewrite Eb].
    + (* a fresh dictionary is hung under [a] *)
      rewrite (set_loop_cons_fresh _ _ _ _ E) in S.
      pose proof (grown_wf h c a Hc Hcl) as Hwf.
      destruct (set_loop_spec init1 _ _ Hwf)
        as (h1 & c1 & S1 & Hdom & Hc1 & Hcl1 & K & N & F & R & D).
      assert (∀ p l, resolve (assign_new_dict h c a) (fresh (dom h)) p = Some l
                → p = [] ∧ l = fresh (dom h)) as Hnew.
      { intros p l. by apply grown_resolve_new. }
      assert (c1 ∉ dom h) as Hc1new.
      { destruct D as [[_ R0]|[Hn _]].
        - apply Hnew in R0 as [_ ->]. apply fresh_not_dom.
        - intros ?. apply Hn. by apply grown_dom_mono. }
      assert (∀ l, l ∈ dom h →
                deref hf l = deref (assign_new_dict h c a) l) as Same.
      { intros l Hl. rewrite S1 in S. simpl in S. injection S as <-.
        rewrite deref_setitem_ne_loc by (by intros ->).
        unfold deref. rewrite F; [done|by apply grown_dom_mono|].
        intros p _ Rp. apply Hnew in Rp as [_ ->].
        by apply fresh_not_dom in Hl. }
      destruct (decide (a = b)) as [<-|Hab].
      * assert (get_loop hf (VDict (fresh (dom h))) bs d
                = get_loop (assign_new_dict h c a) (VDict (fresh (dom h))) bs d)
          as G.
        { apply (IH _ _ bs k1 v d hf); auto.
          - intros p q l Rp Rq.
            apply Hnew in Rp as [-> _]. by apply Hnew in Rq as [-> _].
          - intros P. apply N1. simpl. by apply prefix_cons.
          - intros P. apply N2. simpl. by apply prefix_cons. }
        destruct bs as [|b' bs].
        { destruct N2. apply prefix_cons, prefix_nil. }
        rewrite (get_loop_cons_Some hf c a _ (VDict (fresh (dom h))))
          by (rewrite (Same c Hc); by apply grown_cell).
        rewrite G, get_loop_cons_None
          by (rewrite grown_new_empty by done; apply lookup_empty).
        simpl. unfold dict_contains, dict_getitem, not_dict_cell in *.
        by destruct (deref h c !! a) as [[]|].
      * simpl. unfold dict_contains, dict_getitem.
        rewrite (Same c Hc), grown_other_key by done.
        destruct (deref h c !! b) as [v0|] eqn:Eb; simpl; [|done].
        destruct (isinstance_dict v0) eqn:Hv; [|by apply get_loop_scalar].
        destruct v0 as [| | | | |l0]; try done.
        apply get_loop_ext. intros p l R0.
        assert (l ∈ dom h) as Hl.
        { eapply (resolve_dom h Hcl p l0); [eapply Hcl, Eb|done]. }
        rewrite (Same l Hl). unfold deref.
        rewrite grown_other_loc; [done..| |done].
        intros ->.
        assert (resolve h c (b :: p) = Some c) as R' by (simpl; by rewrite Eb).
        by apply (A [] _ c) in R'.
Qed.

Lemma set_keys_total h c init k v :
  wf h c → ∃ hf, set_keys h c init k v = Ok hf.
Proof.
  intros Hwf. unfold set_keys.
  destruct (set_loop_spec init h c Hwf) as (h1 & c1 & -> & _). simpl. eauto.
Qed.

Lemma flat_wf l d : flat d → wf {[l := d]} l.
Proof.
  intros Hd. split.
  - rewrite dom_singleton_L. set_solver.
  - intros l0 k l' E. exfalso.
    destruct (decide (l0 = l)) as [->|Hl].
    + unfold deref in E. rewrite lookup_singleton_eq in E. simpl in E.
      by apply Hd in E.
    + unfold deref in E. rewrite lookup_singleton_ne in E by done.
      simpl in E. by rewrite lookup_empty in E.
Qed.

Lemma flat_tree l d : flat d → tree_from {[l := d]} l.
Proof.
  intros Hd.
  assert (∀ p m, resolve {[l := d]} l p = Some m → p = []) as H.
  { intros [|k p] m; [done|]. simpl. unfold deref.
    rewrite lookup_singleton_eq. simpl.
    destruct (d !! k) as [v|] eqn:E; [|done].
    apply Hd in E. by destruct v. }
  intros p q m Rp Rq. apply H in Rp, Rq. by subst.
Qed.

Lemma flat_empty : flat ∅.
Proof. intros k v E. by rewrite lookup_empty in E. Qed.

Lemma flat_singleton k v : isinstance_dict v = false → flat {[k := v]}.
Proof.
  intros Hv k0 v0 E. apply lookup_singleton_Some in E as [_ <-]. done.
Qed.

Lemma alloc_members_dom_mono (f : heap → json → heap * value) ms :
  Forall (λ kj, ∀ h, dom h ⊆ dom (f h kj.2).1) ms →
  ∀ h d, dom h ⊆ dom (alloc_members f h d ms).1.
Proof.
  induction 1 as [|[k j] ms Hj _ IH]; intros h d; simpl; [done|].
  specialize (Hj h). simpl in Hj. destruct (f h j) as [h1 v]. simpl in Hj.
  specialize (IH h1 (<[k := v]> d)). set_solver.
Qed.

Lemma alloc_elements_dom_mono (f : heap → json → heap * value) js :
  Forall (λ j, ∀ h, dom h ⊆ dom (f h j).1) js →
  ∀ h, dom h ⊆ dom (alloc_elements f h js).1.
Proof.
  induction 1 as [|j js Hj _ IH]; intros h; simpl; [done|].
  specialize (Hj h). destruct (f h j) as [h1 v]. simpl in Hj.
  specialize (IH h1). destruct (alloc_elements f h1 js) as [h2 vs].
  simpl in *. set_solver.
Qed.

Lemma alloc_dom_mono : ∀ j h, dom h ⊆ dom (alloc h j).1.
Proof.
  fix IH 1. intros [ | b | n | s | elements | members] h; simpl; try done.
  - assert (Forall (λ j, ∀ h, dom h ⊆ dom (alloc h j).1) elements) as F.
    { induction elements as [|j js IHjs]; constructor; [apply IH|apply IHjs]. }
    pose proof (alloc_elements_dom_mono alloc elements F h) as M.
    destruct (alloc_elements alloc h elements) as [h' vs]. done.
  - assert (Forall (λ kj : string * json,
                      ∀ h, dom h ⊆ dom (alloc h kj.2).1) members) as F.
    { induction members as [|[k j] ms IHms]; constructor;
        [apply IH|apply IHms]. }
    pose proof (alloc_members_dom_mono alloc members F h ∅) as M.
    destruct (alloc_members alloc h ∅ members) as [h' d]. simpl in *.
    rewrite dom_insert_L. set_solver.
Qed.

Lemma alloc_obj_fresh h members :
  ∃ h' l, alloc h (JObj members) = (h', VDict l) ∧ l ∉ dom h.
Proof.
  simpl.
  assert (dom h ⊆ dom (alloc_members alloc h ∅ members).1) as M.
  { apply alloc_members_dom_mono, Forall_forall.
    intros ? _ ?. apply alloc_dom_mono. }
  destruct (alloc_members alloc h ∅ members) as [h' d]. simpl in *.
  eexists _, _. split; [done|].
  intros Hl. apply M in Hl. by apply is_fresh in Hl.
Qed.

(** C1 (amended).  On a store where no dictionary below the root
    contains itself, for every dotted key [key] and value [v], [set]
    succeeds and a following [get] of the same key returns [v]; and on
    every store, [delete] succeeds and a following [get] with a default
    returns that default. *)
Theorem set_get_and_delete_get h self key v d :
  (wf h (_config self) → acyclic_from h (_config self) →
   ∃ h', set h self key v = Ok h' ∧ get h' self key d = Ok v) ∧
  (∃ h', delete h self key = Ok h' ∧ get h' self key d = Ok d).
Proof.
  split; [by apply get_after_set|apply get_after_delete].
Qed.

(** C1 as stated fails when a dictionary is stored inside itself:
<<
    c.set('a.x', 0); c.set('a.a', c.get('a')); c.set('a.a.a', 5)
>>
    The last [set] walks [a], [a] inside the one dictionary and then
    overwrites its entry [a] with 5, so [c.get('a.a.a')] finds the
    number 5 where it expects a dictionary and returns the default. *)
Lemma set_get_fails_on_cyclic_document :
  ∃ h0 self h1 va h2 h3,
    __init__ missing_file ∅ "config.json" = Ok (h0, self) ∧
    set h0 self "a.x" (VInt 0) = Ok h1 ∧
    get h1 self "a" VNone = Ok va ∧
    set h1 self "a.a" va = Ok h2 ∧
    set h2 self "a.a.a" (VInt 5) = Ok h3 ∧
    get h3 self "a.a.a" VNone = Ok VNone.
Proof.
  do 6 eexists.
  split; [vm_compute; reflexivity|].
  split; [vm_compute; reflexivity|].
  split; [vm_compute; reflexivity|].
  split; [vm_compute; reflexivity|].
  split; [vm_compute; reflexivity|].
  vm_compute; reflexivity.
Qed.

(** C10 as stated fails when two keys hold the same dictionary object:
<<
    c.set('a.y', 0); c.set('b', c.get('a')); c.set('a.x', 1)
>>
    The keys [a.x] and [b.x] are not prefixes of one another, yet
    [c.get('b.x')] changes from the default to 1. *)
Lemma set_frame_fails_on_shared_dict :
  ∃ h0 self h1 va h2 h3,
    __init__ missing_file ∅ "config.json" = Ok (h0, self) ∧
    set h0 self "a.y" (VInt 0) = Ok h1 ∧
    get h1 self "a" VNone = Ok va ∧
    set h1 self "b" va = Ok h2 ∧
    ¬ (str_split "." "a.x" `prefix_of` str_split "." "b.x") ∧
    ¬ (str_split "." "b.x" `prefix_of` str_split "." "a.x") ∧
    set h2 self "a.x" (VInt 1) = Ok h3 ∧
    get h2 self "b.x" VNone = Ok VNone ∧
    get h3 self "b.x" VNone = Ok (VInt 1).
Proof.
  do 6 eexists.
  split; [vm_compute; reflexivity|].
  split; [vm_compute; reflexivity|].
  split; [vm_compute; reflexivity|].
  split; [vm_compute; reflexivity|].
  split; [by intros [q Hq]|].
  split; [by intros [q Hq]|].
  split; [vm_compute; reflexivity|].
  split; vm_compute; reflexivity.
Qed.

(** C10 (amended).  On a store whose document is a tree (no dictionary
    object is reached from the root by two different key paths), for
    two dotted keys neither of which is a prefix of the other, segment
    by segment, [set] on the first succeeds and leaves the result of
    [get] on the second, for every default, as it was. *)
Theorem set_frame_on_trees h self k1 k2 v d :
  wf h (_config self) → tree_from h (_config self) →
  ¬ (str_split "." k1 `prefix_of` str_split "." k2) →
  ¬ (str_split "." k2 `prefix_of` str_split "." k1) →
  ∃ h', set h self k1 v = Ok h' ∧ get h' self k2 d = get h self k2 d.
Proof.
  intros Hwf T N1 N2.
  destruct (str_split_snoc "." k1) as (init & k & E).
  destruct (set_keys_total h (_config self) init k v Hwf) as [h' S].
  exists h'. rewrite (set_unfold _ _ _ _ _ _ E). split; [done|].
  rewrite E in N1, N2. unfold get. by eapply set_keys_frame.
Qed.

(** A document with one flag: setting [database.host] leaves [debug]. *)
Lemma set_frame_on_trees_witness :
  let h := {[1%positive := {["debug" := VBool true]}]} : heap in
  let self := mkConfigManager "config.json" 1%positive in
  (wf h (_config self) ∧ tree_from h (_config self) ∧
   ¬ (str_split "." "database.host" `prefix_of` str_split "." "debug") ∧
   ¬ (str_split "." "debug" `prefix_of` str_split "." "database.host")) ∧
  ∃ h', set h self "database.host" (VStr "localhost") = Ok h' ∧
        get h' self "debug" VNone = get h self "debug" VNone.
Proof.
  assert (flat ({["debug" := VBool true]} : gmap string value)) as F
    by (by apply flat_singleton).
  assert (¬ (str_split "." "database.host" `prefix_of` str_split "." "debug"))
    as N1 by (by intros [q Hq]).
  assert (¬ (str_split "." "debug" `prefix_of` str_split "." "database.host"))
    as N2 by (by intros [q Hq]).
  simpl. split; [split_and!; [by apply flat_wf|by apply flat_tree|done..]|].
  apply (set_frame_on_trees _ (mkConfigManager "config.json" 1%positive)
           "database.host" "debug" (VStr "localhost") VNone
           (flat_wf 1%positive _ F) (flat_tree 1%positive _ F) N1 N2).
Defined.

(** [database] holds a string; [set] of [database.host] replaces it. *)
Lemma set_through_scalar_witness :
  let h := {[1%positive := {["database" := VStr "sqlite"]}]} : heap in
  let self := mkConfigManager "config.json" 1%positive in
  (wf h (_config self) ∧
   removelast (str_split "." "database.host") = [] ++ "database" :: [] ∧
   path_value h (_config self) ([] ++ ["database"]) = Some (VStr "sqlite") ∧
   isinstance_dict (VStr "sqlite") = false) ∧
  ∃ h' l, set h self "database.host" (VStr "localhost") = Ok h' ∧
    (l ∉ dom h) ∧
    path_value h' (_config self) ([] ++ ["database"]) = Some (VDict l) ∧
    get h' self "database.host" VNone = Ok (VStr "localhost").
Proof.
  assert (flat ({["database" := VStr "sqlite"]} : gmap string value)) as F
    by (by apply flat_singleton).
  simpl. split; [split_and!; [by apply flat_wf|done..]|].
  apply (set_through_scalar _ (mkConfigManager "config.json" 1%positive)
           "database.host" (VStr "localhost") VNone [] "database" []
           (VStr "sqlite") (flat_wf 1%positive _ F) eq_refl eq_refl eq_refl).
Defined.

(** C4 (amended).  [load()] leaves the in-memory state as it is when
    the file does not exist; when the file exists and parses, the
    state becomes the parsed document, a dictionary that was not in
    the store before; when the file exists and reading it raises
    [JSONDecodeError] or [FileNotFoundError], no exception propagates
    and the state becomes a new empty dictionary. *)
Theorem load_outcomes f h self :
  (exists_in_load f = false → load f h self = Ok (h, self)) ∧
  (exists_in_load f = true → exists_in_load_json_config f = true →
   ∀ members, read f = Parsed members →
     ∃ h' l, alloc h (JObj members) = (h', VDict l) ∧ (l ∉ dom h) ∧
       load f h self = Ok (h', with_config self l)) ∧
  (exists_in_load f = true →
   exists_in_load_json_config f = false
   ∨ read f = ReadRaises JSONDecodeError
   ∨ read f = ReadRaises FileNotFoundError →
     ∃ l, (l ∉ dom h) ∧
       load f h self = Ok (<[l := ∅]> h, with_config self l)).
Proof.
  unfold load, load_json_config. split_and!.
  - by intros ->.
  - intros -> -> members ->.
    destruct (alloc_obj_fresh h members) as (h' & l & E & Hl).
    exists h', l. split_and!; [done..|]. cbn [negb]. by rewrite E.
  - intros -> H. exists (fresh (dom h)). split; [apply fresh_not_dom|].
    destruct (exists_in_load_json_config f); simpl; [|done].
    by destruct H as [?|[-> | ->]].
Qed.

(** A store holding [stale = 1]: a missing file keeps it, a file
    that is not JSON replaces it by an empty dictionary. *)
Lemma load_outcomes_witness :
  let h := {[1%positive := {["stale" := VInt 1]}]} : heap in
  let self := mkConfigManager "config.json" 1%positive in
  load missing_file h self = Ok (h, self) ∧
  (∃ l, (l ∉ dom h) ∧
     load (mkFileView true true (ReadRaises JSONDecodeError)) h self
       = Ok (<[l := ∅]> h, with_config self l)).
Proof.
  simpl. split.
  - apply (load_outcomes missing_file). reflexivity.
  - apply (load_outcomes (mkFileView true true (ReadRaises JSONDecodeError)));
      [reflexivity|]. right. left. reflexivity.
Defined.

(** C4 as stated fails when the file is missing and the state is not
    empty: after [c.set('a', 1)], [c.load()] leaves [a] at 1. *)
Lemma load_keeps_state_when_file_missing :
  ∃ h0 self h1 h2 self2,
    __init__ missing_file ∅ "config.json" = Ok (h0, self) ∧
    set h0 self "a" (VInt 1) = Ok h1 ∧
    load missing_file h1 self = Ok (h2, self2) ∧
    get h2 self2 "a" VNone = Ok (VInt 1).
Proof.
  do 5 eexists.
  split; [vm_compute; reflexivity|].
  split; [vm_compute; reflexivity|].
  split; [vm_compute; reflexivity|].
  vm_compute; reflexivity.
Qed.

(** *** Further properties of the configuration store *)

Lemma get_loop_path_value h c init k d :
  get_loop h (VDict c) (init ++ [k]) d
  = Ok (default d (path_value h c (init ++ [k]))).
Proof.
  rewrite path_value_snoc.
  destruct (resolve h c init) as [c1|] eqn:R.
  - destruct (deref h c1 !! k) as [v|] eqn:E.
    + by apply get_loop_resolve with (c1 := c1).
    + apply get_loop_thinned with (h := h) (c1 := c1); [|done..].
      intros ??. by left.
  - by apply get_loop_unresolved.
Qed.

(** X1.  [get] never raises: it returns the value stored under the
    dotted key when every segment but the last leads to a dictionary
    that holds the next segment, and the default in every other case
    (a missing segment, or a value that is not a dictionary on the
    way). *)
Theorem get_returns_stored_or_default h self key d :
  get h self key d
  = Ok (default d (path_value h (_config self) (str_split "." key))).
Proof.
  unfold get. destruct (str_split_snoc "." key) as (init & k & ->).
  apply get_loop_path_value.
Qed.

(** X2.  [delete] of a key that is not there (a segment is missing, or
    a value on the way is not a dictionary) raises nothing and leaves
    the store as it is. *)
Theorem delete_absent_is_noop h self key :
  path_value h (_config self) (str_split "." key) = None →
  delete h self key = Ok h.
Proof.
  destruct (str_split_snoc "." key) as (init & k & E).
  unfold delete. rewrite E, removelast_last, delete_loop_resolve.
  rewrite path_value_snoc. simpl.
  destruct (resolve h (_config self) init) as [c1|]; [|done].
  intros Hk. rewrite last_key_snoc. simpl. unfold dict_contains.
  by rewrite Hk.
Qed.

(** [debug] holds a flag, so [debug.level.max] is not there. *)
Lemma delete_absent_is_noop_witness :
  let h := {[1%positive := {["debug" := VBool true]}]} : heap in
  let self := mkConfigManager "config.json" 1%positive in
  path_value h (_config self) (str_split "." "debug.level.max") = None ∧
  delete h self "debug.level.max" = Ok h.
Proof.
  simpl. split; [reflexivity|].
  apply (delete_absent_is_noop _ (mkConfigManager "config.json" 1%positive)
           "debug.level.max"). reflexivity.
Defined.


Lemma acyclic_child h c k l' :
  acyclic_from h c → deref h c !! k = Some (VDict l') → acyclic_from h l'.
Proof.
  intros A E p q l Rp Rq. apply (A (k :: p) q l); [|done].
  simpl. by rewrite E.
Qed.




Lemma get_on_empty_root h self key d :
  deref h (_config self) = ∅ → get h self key d = Ok d.
Proof.
  intros E. unfold get.
  destruct (str_split_snoc "." key) as (init & k & ->).
  rewrite get_loop_path_value, path_value_snoc.
  destruct init as [|k0 init]; simpl; by rewrite E, lookup_empty.
Qed.

(** X4.  A manager constructed on a file that does not exist, or that
    cannot be parsed as JSON, starts empty: the constructor raises
    nothing and [get] returns the default for every key. *)
Theorem new_manager_without_document f h file :
  exists_in_load f = false
  ∨ exists_in_load_json_config f = false
  ∨ read f = ReadRaises JSONDecodeError
  ∨ read f = ReadRaises FileNotFoundError →
  ∃ h' self, __init__ f h file = Ok (h', self) ∧
    config_file self = file ∧
    ∀ key d, get h' self key d = Ok d.
Proof.
  intros H. unfold __init__, new_dict, load.
  destruct (exists_in_load f) eqn:E1.
  - assert (load_json_config f (<[fresh (dom h) := ∅]> h)
            = Raise JSONDecodeError
            ∨ load_json_config f (<[fresh (dom h) := ∅]> h)
              = Raise FileNotFoundError) as [-> | ->].
    { unfold load_json_config.
      destruct H as [?|[-> |[-> | ->]]]; [done|by right|..];
        destruct (exists_in_load_json_config f); simpl; auto. }
    all: unfold new_dict; eexists _, _; split_and!; [done..|];
      intros key d; apply get_on_empty_root; simpl; apply deref_insert_eq.
  - eexists _, _. split_and!; [done..|].
    intros key d. apply get_on_empty_root. simpl. apply deref_insert_eq.
Qed.

(** The constructor on a missing file. *)
Lemma new_manager_without_document_witness :
  (exists_in_load missing_file = false
   ∨ exists_in_load_json_config missing_file = false
   ∨ read missing_file = ReadRaises JSONDecodeError
   ∨ read missing_file = ReadRaises FileNotFoundError) ∧
  ∃ h' self, __init__ missing_file ∅ "config.json" = Ok (h', self) ∧
    config_file self = "config.json" ∧
    ∀ key d, get h' self key d = Ok d.
Proof.
  split; [by left|].
  apply (new_manager_without_document missing_file ∅ "config.json").
  by left.
Defined.

Lemma resolve_new_stays_new h h1 p : ∀ x l,
  new_stays_new h h1 → resolve h1 x p = Some l → x ∉ dom h → l ∉ dom h.
Proof.
  induction p as [|k p IH]; intros x l Q; simpl.
  - by intros [= <-].
  - destruct (deref h1 x !! k) as [[| | | | |l1]|] eqn:E; try done.
    intros R Hx. apply (IH l1 l Q R). by eapply Q.
Qed.

Lemma resolve_old_target h h1 p : ∀ x l,
  news_fresh h h1 → new_stays_new h h1 →
  resolve h1 x p = Some l → l ∈ dom h → resolve h x p = Some l.
Proof.
  induction p as [|k p IH]; intros x l N Q; simpl; [done|].
  destruct (deref h1 x !! k) as [[| | | | |l1]|] eqn:E; try done.
  intros R Hl. destruct (N _ _ _ E) as [-> | Hnew]; [by apply IH|].
  by apply (resolve_new_stays_new h h1 p l1 l Q R) in Hnew.
Qed.

Lemma resolve_ext h h1 p : ∀ x,
  (∀ q l, resolve h x q = Some l → deref h1 l = deref h l) →
  resolve h1 x p = resolve h x p.
Proof.
  induction p as [|k p IH]; intros x Hx; simpl; [done|].
  rewrite (Hx [] x eq_refl).
  destruct (deref h x !! k) as [[| | | | |l1]|] eqn:E; try done.
  apply IH. intros q l R. apply (Hx (k :: q)). simpl. by rewrite E.
Qed.

Lemma news_fresh_new_stays_new h h1 : news_fresh h h1 → new_stays_new h h1.
Proof.
  intros N x k l Hx E. destruct (N _ _ _ E) as [E'|]; [|done].
  by apply deref_Some_dom in E'.
Qed.

Lemma set_loop_tree init : ∀ h c h1 c1,
  wf h c → tree_from h c → set_loop h c init = Ok (h1, c1) → tree_from h1 c.
Proof.
  induction init as [|a init IH]; intros h c h1 c1 [Hc Hcl] T S.
  { by injection S as <- <-. }
  pose proof (tree_acyclic _ _ T) as A.
  destruct (cell_cases h c a) as [[l' E]|E].
  - rewrite (set_loop_cons_dict _ _ _ _ _ E) in S.
    assert (wf h l') as Hwf by (split; [eapply Hcl, E|done]).
    pose proof (IH h l' h1 c1 Hwf (tree_from_child _ _ _ _ T E) S) as T1.
    destruct (set_loop_spec init h l' Hwf)
      as (h1' & c1' & S1 & Hdom & Hc1 & Hcl1 & K & N & F & R & D).
    rewrite S1 in S. injection S as <- <-.
    pose proof (news_fresh_new_stays_new _ _ N) as Q.
    assert (∀ x, x ∈ dom h → (∀ q, resolve h l' q ≠ Some x) →
              deref h1' x = deref h x) as Same.
    { intros x Hx Hoff. unfold deref. rewrite F; [done..|].
      intros q _. apply Hoff. }
    assert (deref h1' c = deref h c) as Ec.
    { apply Same; [done|]. intros q Rq.
      assert (resolve h c (a :: q) = Some c) as R' by (simpl; by rewrite E).
      by apply (A [] _ c) in R'. }
    assert (∀ p l, resolve h1' c p = Some l → l ∉ dom h →
              ∃ p', p = a :: p' ∧ resolve h1' l' p' = Some l) as Via.
    { intros [|b p] l; simpl; [by intros [= <-]|].
      rewrite Ec. destruct (deref h c !! b) as [[| | | | |lb]|] eqn:Eb;
        try done.
      intros Rp Hl. destruct (decide (a = b)) as [<-|Hab].
      - rewrite E in Eb. injection Eb as <-. eauto.
      - exfalso. apply Hl.
        rewrite (resolve_ext h h1' p lb) in Rp.
        + eapply (resolve_dom h Hcl p lb); [eapply Hcl, Eb|done].
        + intros q x Rq. apply Same.
          * eapply (resolve_dom h Hcl q lb); [eapply Hcl, Eb|done].
          * intros q' Rq'.
            assert (a :: q' = b :: q) as [= ? _]; [|done].
            apply (T _ _ x); simpl; [by rewrite E|by rewrite Eb]. }
    intros p q l Rp Rq.
    destruct (decide (l ∈ dom h)) as [Hl|Hl].
    + apply (T p q l); by apply (resolve_old_target h h1').
    + destruct (Via p l Rp Hl) as (p' & -> & Rp').
      destruct (Via q l Rq Hl) as (q' & -> & Rq').
      f_equal. by apply (T1 p' q' l).
  - rewrite (set_loop_cons_fresh _ _ _ _ E) in S.
    pose proof (grown_wf h c a Hc Hcl) as Hwf.
    assert (∀ p l, resolve (assign_new_dict h c a) (fresh (dom h)) p = Some l
              → p = [] ∧ l = fresh (dom h)) as Hnew.
    { intros p l. by apply grown_resolve_new. }
    assert (tree_from (assign_new_dict h c a) (fresh (dom h))) as Tg.
    { intros p q l Rp Rq.
      apply Hnew in Rp as [-> _]. by apply Hnew in Rq as [-> _]. }
    pose proof (IH _ _ h1 c1 Hwf Tg S) as T1.
    destruct (set_loop_spec init _ _ Hwf)
      as (h1' & c1' & S1 & Hdom & Hc1 & Hcl1 & K & N & F & R & D).
    rewrite S1 in S. injection S as <- <-.
    assert (∀ x, x ∈ dom h → h1' !! x = assign_new_dict h c a !! x) as Same.
    { intros x Hx. apply F; [by apply grown_dom_mono|].
      intros q _ Rq. apply Hnew in Rq as [_ ->].
      by apply fresh_not_dom in Hx. }
    assert (deref h1' c !! a = Some (VDict (fresh (dom h)))) as Ea.
    { unfold deref. rewrite Same by done. by apply grown_cell. }
    assert (new_stays_new h h1') as Q.
    { intros x k l Hx Ex Hl. destruct (N _ _ _ Ex) as [Eg|Hn].
      - destruct (decide (x = fresh (dom h))) as [->|Hx'].
        + rewrite grown_new_empty in Eg by done. by rewrite lookup_empty in Eg.
        + apply deref_Some_dom in Eg.
          apply Hx, (grown_dom_inv h c a); [done| |done].
          intros ->. by apply Hx.
      - apply Hn. by apply grown_dom_mono. }
    assert (∀ p l, resolve h1' c p = Some l →
              (p = [] ∧ l = c)
              ∨ (∃ p', p = a :: p'
                       ∧ resolve h1' (fresh (dom h)) p' = Some l ∧ l ∉ dom h)
              ∨ (resolve h c p = Some l ∧ l ∈ dom h ∧ p ≠ []
                 ∧ ∀ p', p ≠ a :: p')) as Cases.
    { intros [|b p] l Rp; simpl in Rp; [injection Rp as <-; by left|]. right.
      destruct (decide (b = a)) as [->|Hab].
      - rewrite Ea in Rp. left. exists p. split_and!; [done..|].
        eapply (resolve_new_stays_new h h1'); [done..|apply fresh_not_dom].
      - unfold deref at 1 in Rp. rewrite (Same c Hc) in Rp.
        fold (deref (assign_new_dict h c a) c) in Rp.
        rewrite grown_other_key in Rp by done.
        destruct (deref h c !! b) as [[| | | | |lb]|] eqn:Eb; try done.
        right.
        assert (lb ∈ dom h) as Hlb by (eapply Hcl, Eb).
        rewrite (resolve_ext h h1' p lb) in Rp.
        + split_and!; [simpl; by rewrite Eb| |done|congruence].
          by eapply (resolve_dom h Hcl p lb).
        + intros q x Rq.
          assert (x ∈ dom h) as Hx by (by eapply (resolve_dom h Hcl q lb)).
          unfold deref. rewrite (Same x Hx), grown_other_loc; [done..| |done].
          intros ->.
          assert (resolve h c (b :: q) = Some c) as R'
            by (simpl; by rewrite Eb).
          by apply (A [] _ c) in R'. }
    intros p q l Rp Rq.
    destruct (Cases p l Rp)
      as [[Hp Hlc]|[(p' & Hp & Rp' & Hl)|(Rp' & Hl & Hp & Hpa)]];
      destruct (Cases q l Rq)
        as [[Hq Hlc']|[(q' & Hq & Rq' & Hl')|(Rq' & Hl' & Hq & Hqa)]].
    + congruence.
    + subst l. done.
    + subst l. by apply (A [] q c) in Rq'.
    + subst l. done.
    + subst p q. f_equal. by apply (T1 p' q' l).
    + done.
    + subst l. by apply (A [] p c) in Rp'.
    + done.
    + by apply (T p q l).
Qed.

Lemma setitem_scalar_keeps h l k v :
  isinstance_dict v = false → keeps_dicts (dict_setitem h l k v) h.
Proof.
  intros Hv x k0 l0 E.
  destruct (decide (l = x)) as [->|Hx].
  - destruct (decide (k = k0)) as [->|Hk].
    + rewrite deref_setitem_eq in E. injection E as ->. done.
    + by rewrite deref_setitem_ne_key in E.
  - by rewrite deref_setitem_ne_loc in E.
Qed.

Lemma set_scalar_keeps_tree h self key v :
  wf h (_config self) → tree_from h (_config self) →
  isinstance_dict v = false →
  ∃ h', set h self key v = Ok h' ∧
    wf h' (_config self) ∧ tree_from h' (_config self).
Proof.
  intros Hwf T Hv.
  destruct (str_split_snoc "." key) as (init & k & E).
  rewrite (set_unfold _ _ _ _ _ _ E). unfold set_keys.
  set (c := _config self) in *.
  destruct (set_loop_spec init h c Hwf)
    as (h1 & c1 & S & Hdom & Hc1 & Hcl1 & K & N & F & R & D).
  pose proof (set_loop_tree init h c h1 c1 Hwf T S) as T1.
  rewrite S. simpl. eexists. split; [done|].
  pose proof (setitem_scalar_keeps h1 c1 k v Hv) as Kf.
  split; [split|].
  - rewrite dom_setitem. apply elem_of_union_r, Hdom, Hwf.
  - intros x k0 l0 E0. rewrite dom_setitem.
    apply elem_of_union_r. eapply Hcl1, Kf, E0.
  - intros p q l Rp Rq.
    apply (T1 p q l); by apply (resolve_keeps _ _ _ _ _ Kf).
Qed.

(** The property at work on a document with a nested dictionary:
    [database.host] is overwritten by [set], and removed by [delete]. *)
Lemma set_get_and_delete_get_witness :
  let h := {[1%positive := {["database" := VDict 2%positive]};
             2%positive := {["host" := VStr "db"]}]} : heap in
  let self := mkConfigManager "config.json" 1%positive in
  (wf h (_config self) ∧ acyclic_from h (_config self)) ∧
  (∃ h', set h self "database.host" (VStr "localhost") = Ok h' ∧
         get h' self "database.host" VNone = Ok (VStr "localhost")) ∧
  (get h self "database.host" (VInt 3306) = Ok (VStr "db") ∧
   ∃ h', delete h self "database.host" = Ok h' ∧
         get h' self "database.host" (VInt 3306) = Ok (VInt 3306)).
Proof.
  set (h := {[1%positive := {["database" := VDict 2%positive]};
              2%positive := {["host" := VStr "db"]}]} : heap).
  set (self := mkConfigManager "config.json" 1%positive).
  assert (wf h (_config self) ∧ tree_from h (_config self)) as [W T].
  { destruct (set_scalar_keeps_tree {[1%positive := ∅]} self
                "database.host" (VStr "db")) as (h' & S & W & T).
    - apply flat_wf, flat_empty.
    - apply flat_tree, flat_empty.
    - reflexivity.
    - assert (set {[1%positive := ∅]} self "database.host" (VStr "db") = Ok h)
        as S' by (vm_compute; reflexivity).
      rewrite S' in S. injection S as <-. done. }
  pose proof (tree_acyclic _ _ T) as A.
  simpl. split; [done|]. split.
  - apply (set_get_and_delete_get h self "database.host" (VStr "localhost")
             VNone); done.
  - split; [vm_compute; reflexivity|].
    apply (set_get_and_delete_get h self "database.host" VNone (VInt 3306)).
Defined.

Lemma delete_keeps_tree h self key :
  wf h (_config self) → tree_from h (_config self) →
  ∃ h', delete h self key = Ok h' ∧
    wf h' (_config self) ∧ tree_from h' (_config self).
Proof.
  intros Hwf T. pose proof Hwf as [Hc Hcl].
  destruct (str_split_snoc "." key) as (init & k & E).
  unfold delete. rewrite E, removelast_last, delete_loop_resolve.
  simpl. destruct (resolve h (_config self) init) as [c1|] eqn:R;
    [|by exists h].
  rewrite last_key_snoc. simpl. unfold dict_contains, dict_delitem.
  destruct (deref h c1 !! k) as [x|] eqn:Ek; [|by exists h].
  eexists. split; [done|].
  assert (keeps_dicts (<[c1 := base.delete k (deref h c1)]> h) h) as Kf.
  { intros l k0 l0 E0. destruct (decide (c1 = l)) as [->|Hl].
    - rewrite deref_insert_eq in E0.
      by apply lookup_delete_Some in E0 as [_ ?].
    - by rewrite deref_insert_ne in E0. }
  split; [split|].
  - rewrite dom_insert_L. by apply elem_of_union_r.
  - intros l k0 l0 E0. rewrite dom_insert_L.
    apply elem_of_union_r. eapply Hcl, Kf, E0.
  - intros p q l Rp Rq.
    apply (T p q l); by apply (resolve_keeps _ _ _ _ _ Kf).
Qed.

(** X5.  A well-formed tree document stays one: after [set] of a value
    that is not a dictionary, and after [delete], the store is again
    well formed and the document again a tree. *)
Theorem set_and_delete_keep_trees h self key v :
  wf h (_config self) → tree_from h (_config self) →
  (isinstance_dict v = false →
   ∃ h', set h self key v = Ok h' ∧
     wf h' (_config self) ∧ tree_from h' (_config self)) ∧
  (∃ h', delete h self key = Ok h' ∧
     wf h' (_config self) ∧ tree_from h' (_config self)).
Proof.
  intros Hwf T. split.
  - intros Hv. by apply set_scalar_keeps_tree.
  - by apply delete_keeps_tree.
Qed.

(** [set] through the string under [database], and [delete] of it. *)
Lemma set_and_delete_keep_trees_witness :
  let h := {[1%positive := {["database" := VStr "sqlite"]}]} : heap in
  let self := mkConfigManager "config.json" 1%positive in
  (wf h (_config self) ∧ tree_from h (_config self)) ∧
  (∃ h', set h self "database.port" (VInt 5432) = Ok h' ∧
     wf h' (_config self) ∧ tree_from h' (_config self)) ∧
  (∃ h', delete h self "database" = Ok h' ∧
     wf h' (_config self) ∧ tree_from h' (_config self)).
Proof.
  assert (flat ({["database" := VStr "sqlite"]} : gmap string value)) as F
    by (by apply flat_singleton).
  simpl. split; [split; [by apply flat_wf|by apply flat_tree]|]. split.
  - apply (set_and_delete_keep_trees _
             (mkConfigManager "config.json" 1%positive)
             "database.port" (VInt 5432)
             (flat_wf 1%positive _ F) (flat_tree 1%positive _ F)).
    reflexivity.
  - apply (set_and_delete_keep_trees _
             (mkConfigManager "config.json" 1%positive)
             "database" VNone
             (flat_wf 1%positive _ F) (flat_tree 1%positive _ F)).
Defined.

Lemma held_nowhere_unreachable h copy p : ∀ c,
  held_nowhere h copy → c ≠ copy → resolve h c p ≠ Some copy.
Proof.
  induction p as [|k p IH]; intros c Hh Hc; simpl.
  - by intros [= ->].
  - destruct (deref h c !! k) as [[| | | | |l]|] eqn:E; try done.
    apply IH; [done|]. intros ->. by apply (Hh c k).
Qed.

Lemma set_keeps_apart h self copy key v :
  apart h (_config self) copy → keeps_out h copy (USet key v) →
  ∃ h2, set h self key v = Ok h2 ∧ deref h2 copy = deref h copy ∧
    apart h2 (_config self) copy.
Proof.
  intros (Hwf & Hin & Hne & Hh) Hv.
  assert (∀ p, resolve h (_config self) p ≠ Some copy) as Hunreach.
  { intros p. by apply held_nowhere_unreachable. }
  destruct (str_split_snoc "." key) as (init & k & E).
  rewrite (set_unfold _ _ _ _ _ _ E). unfold set_keys.
  destruct (set_loop_spec init h (_config self) Hwf)
    as (h1 & c1 & -> & Hdom & Hc1 & Hcl1 & K & N & F & R & D).
  simpl. eexists. split; [done|].
  assert (c1 ≠ copy) as Hc1'.
  { intros ->. destruct D as [[_ R0]|[Hn _]]; [by apply Hunreach in R0|done]. }
  assert (deref h1 copy = deref h copy) as Hsame.
  { unfold deref. rewrite F; [done..|]. intros p _. apply Hunreach. }
  split; [by rewrite deref_setitem_ne_loc|].
  split_and!.
  - split.
    + rewrite dom_setitem. apply elem_of_union_r, Hdom, Hwf.
    + intros x k0 l0 E0. rewrite dom_setitem. apply elem_of_union_r.
      destruct (decide (c1 = x)) as [<-|Hx].
      * destruct (decide (k = k0)) as [<-|Hk].
        -- rewrite deref_setitem_eq in E0. injection E0 as ->.
           simpl in Hv. by apply Hdom, Hv.
        -- rewrite deref_setitem_ne_key in E0 by done. eapply Hcl1, E0.
      * rewrite deref_setitem_ne_loc in E0 by done. eapply Hcl1, E0.
  - rewrite dom_setitem. by apply elem_of_union_r, Hdom.
  - done.
  - intros x k0 E0.
    assert (deref h1 x !! k0 ≠ Some (VDict copy)) as H1.
    { intros E1. destruct (N _ _ _ E1) as [E2|Hn]; [by apply (Hh x k0)|done]. }
    destruct (decide (c1 = x)) as [<-|Hx].
    + destruct (decide (k = k0)) as [<-|Hk].
      * rewrite deref_setitem_eq in E0. injection E0 as ->.
        simpl in Hv. by destruct Hv.
      * by rewrite deref_setitem_ne_key in E0.
    + by rewrite deref_setitem_ne_loc in E0.
Qed.

Lemma delete_keeps_apart h self copy key :
  apart h (_config self) copy →
  ∃ h2, delete h self key = Ok h2 ∧ deref h2 copy = deref h copy ∧
    apart h2 (_config self) copy.
Proof.
  intros (Hwf & Hin & Hne & Hh). pose proof Hwf as [Hc Hcl].
  assert (∀ p, resolve h (_config self) p ≠ Some copy) as Hunreach.
  { intros p. by apply held_nowhere_unreachable. }
  destruct (str_split_snoc "." key) as (init & k & E).
  unfold delete. rewrite E, removelast_last, delete_loop_resolve.
  simpl. destruct (resolve h (_config self) init) as [c1|] eqn:R;
    [|by exists h].
  rewrite last_key_snoc. simpl. unfold dict_contains, dict_delitem.
  destruct (deref h c1 !! k) as [x|] eqn:Ek; [|by exists h].
  eexists. split; [done|].
  assert (c1 ≠ copy) as Hc1 by (intros ->; by apply Hunreach in R).
  assert (∀ l k0 w, deref (<[c1 := base.delete k (deref h c1)]> h) l !! k0
                    = Some w → deref h l !! k0 = Some w) as Kf.
  { intros l k0 w E0. destruct (decide (c1 = l)) as [->|Hl].
    - rewrite deref_insert_eq in E0.
      by apply lookup_delete_Some in E0 as [_ ?].
    - by rewrite deref_insert_ne in E0. }
  split; [by apply deref_insert_ne|].
  split_and!.
  - split.
    + rewrite dom_insert_L. by apply elem_of_union_r.
    + intros l k0 l0 E0. rewrite dom_insert_L.
      apply elem_of_union_r. eapply Hcl, Kf, E0.
  - rewrite dom_insert_L. by apply elem_of_union_r.
  - done.
  - intros l k0 E0. apply (Hh l k0). by apply Kf.
Qed.

Lemma build_keeps_apart h c copy d :
  apart h c copy → keeps_out h copy (UBuild d) →
  deref (<[fresh (dom h) := d]> h) copy = deref h copy ∧
  apart (<[fresh (dom h) := d]> h) c copy.
Proof.
  intros ([Hc Hcl] & Hin & Hne & Hh) Hd. simpl in Hd.
  assert (fresh (dom h) ≠ copy) as Hf
    by (intros E; apply (fresh_not_dom h); by rewrite E).
  split; [by apply deref_insert_ne|].
  assert (∀ l k l0, deref (<[fresh (dom h) := d]> h) l !! k = Some (VDict l0)
                    → l0 ∈ dom h ∧ l0 ≠ copy) as Hcell.
  { intros l k l0 E.
    destruct (decide (fresh (dom h) = l)) as [<-|Hl].
    - rewrite deref_insert_eq in E. by apply (Hd k).
    - rewrite deref_insert_ne in E by done.
      split; [eapply Hcl, E|]. intros ->. by apply (Hh l k). }
  split_and!.
  - split.
    + rewrite dom_insert_L. by apply elem_of_union_r.
    + intros l k l0 E. rewrite dom_insert_L.
      apply elem_of_union_r. by apply (Hcell l k).
  - rewrite dom_insert_L. by apply elem_of_union_r.
  - done.
  - intros l k E. by apply Hcell in E as [_ ?].
Qed.

Lemma updates_keep_apart us : ∀ h self copy,
  apart h (_config self) copy → all_keep_out h self copy us →
  ∃ h2, apply_updates h self us = Ok h2 ∧ deref h2 copy = deref h copy.
Proof.
  induction us as [|u us IH]; intros h self copy Ha Hk; simpl.
  - by exists h.
  - destruct Hk as [Hu Hk].
    assert (∃ h1, apply_update h self u = Ok h1 ∧
              deref h1 copy = deref h copy ∧ apart h1 (_config self) copy)
      as (h1 & S & Hsame & Ha1).
    { destruct u as [key v|key|d]; simpl.
      - by apply set_keeps_apart.
      - by apply delete_keeps_apart.
      - eexists. split; [done|]. by apply build_keeps_apart. }
    rewrite S. simpl.
    destruct (IH h1 self copy Ha1 (Hk h1 S)) as (h2 & S2 & Hsame2).
    exists h2. split; [done|]. by rewrite Hsame2.
Qed.

(** X6.  [to_dict] returns a new dictionary object with the entries of
    the root and changes no existing dictionary.  As long as the
    returned dictionary is not handed back to the manager (as the
    value of a [set], or inside a dictionary that the caller builds),
    every sequence of later [set] and [delete] calls succeeds and
    leaves the entries of the returned dictionary as they are (the
    nested dictionaries stay shared). *)
Theorem to_dict_is_a_shallow_copy h self :
  wf h (_config self) →
  let '(h1, copy) := to_dict h self in
  (copy ∉ dom h) ∧
  deref h1 copy = deref h (_config self) ∧
  (∀ l, l ∈ dom h → h1 !! l = h !! l) ∧
  (∀ us, all_keep_out h1 self copy us →
     ∃ h2, apply_updates h1 self us = Ok h2 ∧ deref h2 copy = deref h1 copy).
Proof.
  intros [Hc Hcl]. unfold to_dict.
  set (copy := fresh (dom h)). set (h1 := <[copy := _]> h).
  assert (copy ∉ dom h) as Hnew by apply fresh_not_dom.
  assert (copy ≠ _config self) as Hne by (by intros E; rewrite E in Hnew).
  assert (apart h1 (_config self) copy) as Ha.
  { split_and!.
    - split.
      + unfold h1. rewrite dom_insert_L. by apply elem_of_union_r.
      + intros l k l0 E. unfold h1. rewrite dom_insert_L.
        apply elem_of_union_r. unfold h1 in E.
        destruct (decide (copy = l)) as [<-|Hl].
        * rewrite deref_insert_eq in E. eapply Hcl, E.
        * rewrite deref_insert_ne in E by done. eapply Hcl, E.
    - unfold h1. rewrite dom_insert_L. by apply elem_of_union_l, elem_of_singleton.
    - done.
    - intros l k E. apply Hnew. unfold h1 in E.
      destruct (decide (copy = l)) as [<-|Hl].
      + rewrite deref_insert_eq in E. eapply Hcl, E.
      + rewrite deref_insert_ne in E by done. eapply Hcl, E. }
  split_and!; [done|apply deref_insert_eq| |].
  - intros l Hl. unfold h1. rewrite lookup_insert_ne; [done|].
    by intros <-.
  - intros us Hus. by apply updates_keep_apart.
Qed.

(** Calls after the copy of a document with one flag; the caller
    builds a dictionary and stores it under [database]. *)
Lemma to_dict_is_a_shallow_copy_witness :
  let h := {[1%positive := {["debug" := VBool true]}]} : heap in
  let self := mkConfigManager "config.json" 1%positive in
  let us := [USet "debug" (VBool false);
             UBuild {["host" := VStr "db"]};
             USet "database" (VDict 3%positive);
             UDelete "debug"] in
  wf h (_config self) ∧
  all_keep_out (to_dict h self).1 self (to_dict h self).2 us ∧
  ∃ h2, apply_updates (to_dict h self).1 self us = Ok h2 ∧
    deref h2 (to_dict h self).2 = {["debug" := VBool true]}.
Proof.
  intros h self us.
  assert (wf h (_config self)) as W by (by apply flat_wf, flat_singleton).
  assert (all_keep_out (to_dict h self).1 self (to_dict h self).2 us) as K.
  { split; [done|]. intros ha Ea.
    assert (apply_update (to_dict h self).1 self (USet "debug" (VBool false))
            = Ok {[1%positive := {["debug" := VBool false]};
                   2%positive := {["debug" := VBool true]}]}) as Ea'
      by (vm_compute; reflexivity).
    rewrite Ea' in Ea. injection Ea as <-.
    split.
    { intros k l [_ [=]]%lookup_singleton_Some. }
    intros hb Eb. injection Eb as <-.
    split.
    { split; [|done]. apply elem_of_dom. eexists. vm_compute. reflexivity. }
    intros hc _. split; [done|]. by intros hd _. }
  split; [done|]. split; [exact K|].
  pose proof (to_dict_is_a_shallow_copy h self W) as H.
  destruct (to_dict h self) as [h1 copy].
  destruct H as (_ & Hsame & _ & Hus).
  destruct (Hus _ K) as (h2 & S & Hd).
  exists h2. split; [exact S|].
  etrans; [exact Hd|]. etrans; [exact Hsame|]. apply deref_insert_eq.
Defined.

(** Once the copy is stored in the manager, a [set] below it changes
    the copy:
<<
    copy = c.to_dict(); c.set('a', copy); c.set('a.x', 1)
>> *)
Lemma to_dict_copy_changes_when_stored :
  let h := {[1%positive := {["debug" := VBool true]}]} : heap in
  let self := mkConfigManager "config.json" 1%positive in
  let '(h1, copy) := to_dict h self in
  ∃ h2, apply_updates h1 self [USet "a" (VDict copy); USet "a.x" (VInt 1)]
        = Ok h2 ∧
    deref h1 copy !! "x" = None ∧ deref h2 copy !! "x" = Some (VInt 1).
Proof.
  eexists. split; [vm_compute; reflexivity|]. split; vm_compute; reflexivity.
Qed.

Lemma extends_refl h : extends h h.
Proof. by intros l _. Qed.

Lemma extends_dom h h' l : extends h h' → l ∈ dom h → l ∈ dom h'.
Proof.
  intros X Hl. apply elem_of_dom. rewrite (X l Hl). by apply elem_of_dom.
Qed.

Lemma extends_trans h1 h2 h3 : extends h1 h2 → extends h2 h3 → extends h1 h3.
Proof.
  intros X Y l Hl. rewrite (Y l), (X l); [done..|]. by eapply extends_dom.
Qed.

Lemma extends_fresh (h : heap) d : extends h (<[fresh (dom h) := d]> h).
Proof.
  intros l Hl. rewrite lookup_insert_ne; [done|].
  intros <-. by apply (is_fresh (dom h)).
Qed.

Lemma reads_as_extends h h' v j : extends h h' → reads_as h v j → reads_as h' v j.
Proof. intros X R h'' keys d Y. apply R. by eapply extends_trans. Qed.

Lemma scalar_reads_as h v j :
  isinstance_dict v = false → same_shape v j →
  match j with JObj _ => False | _ => True end → reads_as h v j.
Proof.
  intros Hv Hs Hj h' [|k keys] d _; simpl.
  - eauto.
  - destruct j; try done; by destruct v.
Qed.

Lemma alloc_elements_extends js :
  Forall alloc_reads js →
  ∀ h, extends h (alloc_elements alloc h js).1.
Proof.
  induction 1 as [|j js Hj _ IH]; intros h; simpl; [apply extends_refl|].
  destruct (alloc h j) as [h1 v] eqn:E. destruct (Hj _ _ _ E) as [X _].
  specialize (IH h1). destruct (alloc_elements alloc h1 js) as [h2 vs].
  simpl in *. by eapply extends_trans.
Qed.

Lemma alloc_members_reads ms :
  Forall (λ kj, alloc_reads kj.2) ms →
  ∀ h d0 hm dm, alloc_members alloc h d0 ms = (hm, dm) →
    extends h hm ∧
    ∀ k, match json_member ms k with
         | None => dm !! k = d0 !! k
         | Some j' => ∃ v', dm !! k = Some v' ∧ reads_as hm v' j'
         end.
Proof.
  induction 1 as [|[k0 j0] ms Hj _ IH]; intros h d0 hm dm; simpl.
  - intros [= <- <-]. split; [apply extends_refl|done].
  - destruct (alloc h j0) as [h1 v0] eqn:E0.
    destruct (Hj _ _ _ E0) as [X0 R0]. intros E.
    destruct (IH _ _ _ _ E) as [X1 M]. split; [by eapply extends_trans|].
    intros k. specialize (M k).
    destruct (json_member ms k) as [j'|]; [done|].
    destruct (String.eqb k k0) eqn:Ek.
    + apply String.eqb_eq in Ek as ->.
      rewrite lookup_insert_eq in M. exists v0. split; [done|].
      by eapply reads_as_extends.
    + apply String.eqb_neq in Ek. by rewrite lookup_insert_ne in M.
Qed.

Lemma alloc_reads_all : ∀ j, alloc_reads j.
Proof.
  fix IH 1. intros [ | b | n | s | elements | members] h h' v; simpl.
  - intros [= <- <-]. split; [apply extends_refl|by apply scalar_reads_as].
  - intros [= <- <-]. split; [apply extends_refl|by apply scalar_reads_as].
  - intros [= <- <-]. split; [apply extends_refl|by apply scalar_reads_as].
  - intros [= <- <-]. split; [apply extends_refl|by apply scalar_reads_as].
  - assert (Forall alloc_reads elements) as F.
    { induction elements as [|j js IHjs]; constructor; [apply IH|apply IHjs]. }
    pose proof (alloc_elements_extends elements F h) as X.
    destruct (alloc_elements alloc h elements) as [h1 vs].
    intros [= <- <-]. split; [done|]. apply scalar_reads_as; [done| |done].
    simpl. eauto.
  - assert (Forall (λ kj : string * json, alloc_reads kj.2) members) as F.
    { induction members as [|[k j] ms IHms]; constructor;
        [apply IH|apply IHms]. }
    destruct (alloc_members alloc h ∅ members) as [hm dm] eqn:E.
    destruct (alloc_members_reads members F _ _ _ _ E) as [X M].
    intros [= <- <-].
    pose proof (extends_fresh hm dm) as Xf.
    split; [by eapply extends_trans|].
    intros h'' [|k keys] d Y; simpl.
    + eauto.
    + assert (deref h'' (fresh (dom hm)) = dm) as Ed.
      { unfold deref. rewrite (Y (fresh (dom hm))).
        - by rewrite lookup_insert_eq.
        - rewrite dom_insert_L. apply elem_of_union_l. by apply elem_of_singleton. }
      unfold dict_contains, dict_getitem. rewrite Ed.
      specialize (M k). destruct (json_member members k) as [j'|].
      * destruct M as (v' & -> & R). simpl.
        apply (R h'' keys d). by eapply extends_trans.
      * by rewrite M, lookup_empty.
Qed.

(** X7.  After [load()] of a file that exists and parses, [get] of a
    dotted key returns the default when the parsed document has
    nothing under that path, and otherwise a value of the kind the
    document has there: the same null, boolean, number or string, a
    list for an array, a dictionary for an object.  A repeated member
    name counts with its last value. *)
Theorem load_then_get f h self members key d :
  exists_in_load f = true → exists_in_load_json_config f = true →
  read f = Parsed members →
  ∃ h' self', load f h self = Ok (h', self') ∧
    match json_path (JObj members) (str_split "." key) with
    | None => get h' self' key d = Ok d
    | Some j => ∃ v, get h' self' key d = Ok v ∧ same_shape v j
    end.
Proof.
  intros E1 E2 E3. unfold load, load_json_config. rewrite E1, E2, E3.
  cbn [negb].
  destruct (alloc h (JObj members)) as [h' v] eqn:E.
  destruct (alloc_reads_all _ _ _ _ E) as [X R].
  assert (∃ l, v = VDict l) as [l ->].
  { simpl in E. destruct (alloc_members _ _ _ _). injection E as _ <-. eauto. }
  simpl. eexists _, _. split; [done|].
  unfold get. simpl. apply (R h' _ d), extends_refl.
Qed.

(** A document with a nested port: [database.port] reads 5432. *)
Lemma load_then_get_witness :
  let f := mkFileView true true
             (Parsed [("database", JObj [("port", JNum 5432)]);
                      ("debug", JBool false)]) in
  let self := mkConfigManager "config.json" 1%positive in
  (exists_in_load f = true ∧ exists_in_load_json_config f = true ∧
   read f = Parsed [("database", JObj [("port", JNum 5432)]);
                    ("debug", JBool false)]) ∧
  ∃ h' self', load f {[1%positive := ∅]} self = Ok (h', self') ∧
    ∃ v, get h' self' "database.port" VNone = Ok v ∧ v = VInt 5432.
Proof.
  simpl. split; [done|].
  apply (load_then_get
           (mkFileView true true
              (Parsed [("database", JObj [("port", JNum 5432)]);
                       ("debug", JBool false)]))
           {[1%positive := ∅]} (mkConfigManager "config.json" 1%positive)
           _ "database.port" VNone eq_refl eq_refl eq_refl).
Defined.

End ConfigFacts.

Module DiscoveryFacts.
Import Discovery.

(** *** Text *)

Lemma prefix_append p s : String.prefix p (p ++ s)%string = true.
Proof.
  induction p as [|c p IH]; simpl; [by destruct s|].
  destruct (ascii_dec c c); [done|congruence].
Qed.

Lemma contains_prefix sub s : String.prefix sub s = true → contains sub s = true.
Proof. intros H. destruct s; cbn [contains]; by rewrite H. Qed.

Lemma contains_append pre sub post :
  contains sub (pre ++ sub ++ post)%string = true.
Proof.
  induction pre as [|c pre IH]; simpl.
  - apply contains_prefix, (prefix_append sub post).
  - rewrite IH. apply orb_true_r.
Qed.

Lemma lower_append a b : lower (a ++ b)%string = (lower a ++ lower b)%string.
Proof. induction a as [|c a IH]; simpl; [done|by rewrite IH]. Qed.

(** C2.  When a terminal-ui marker occurs anywhere in the text of the
    entry file, in any mix of upper and lower case, the classification
    is [tui], whatever else the text contains and whatever
    subdirectories the application has. *)
Theorem tui_marker_wins content app m :
  In m tui_markers → occurs_ci m content →
  _determine_app_type content app = "tui".
Proof.
  intros Hm (pre & mid & post & -> & Hmid).
  unfold _determine_app_type.
  assert (any_in tui_markers (lower (pre ++ mid ++ post)%string) = true) as ->;
    [|done].
  unfold any_in. apply existsb_exists. exists m. split; [done|].
  rewrite !lower_append, Hmid.
  replace (lower m) with m; [apply contains_append|].
  simpl in Hm. by destruct Hm as [<-|[<-|[<-|[<-|[]]]]].
Qed.

(** A text with graphical, command-line and web markers, and a
    terminal-ui marker in mixed case on its second line. *)
Lemma tui_marker_wins_witness :
  let content :=
    ("import tkinter, typer, fastapi" ++ String newline
       "From Textual.App import App")%string in
  (In "textual.app" tui_markers ∧ occurs_ci "textual.app" content) ∧
  _determine_app_type content (mkAppEntry "mixed" true None true true) = "tui".
Proof.
  assert (In "textual.app" tui_markers) as Hm by (simpl; tauto).
  assert (occurs_ci "textual.app"
            ("import tkinter, typer, fastapi" ++ String newline
               "From Textual.App import App")%string) as Ho.
  { exists ("import tkinter, typer, fastapi" ++ String newline "From ")%string,
      "Textual.App", " import App". split; reflexivity. }
  simpl. split; [done|].
  apply (tui_marker_wins _ (mkAppEntry "mixed" true None true true)
           "textual.app" Hm Ho).
Defined.

(** *** The order of [sorted] *)

Lemma str_lt_iff a b : str_lt a b = true ↔ String.compare a b = Lt.
Proof. unfold str_lt, String.ltb. by destruct (String.compare a b). Qed.

Lemma compare_refl a : String.compare a a = Eq.
Proof.
  induction a as [|c a IH]; simpl; [done|].
  unfold Ascii.compare. by rewrite N.compare_refl.
Qed.

Lemma compare_lt_trans a b c :
  String.compare a b = Lt → String.compare b c = Lt → String.compare a c = Lt.
Proof.
  intros H1 H2. apply String_as_OT.cmp_lt.
  eapply String_as_OT.lt_trans; by apply String_as_OT.cmp_lt.
Qed.

Lemma compare_gt_lt a b : String.compare a b = Gt ↔ String.compare b a = Lt.
Proof.
  rewrite (String.compare_antisym a b).
  destruct (String.compare b a); simpl; split; congruence.
Qed.

Lemma key_lt_cmp a b : key_lt a b = true ↔ key_cmp a b = Lt.
Proof.
  unfold key_lt, key_cmp, str_eq.
  destruct (String.compare (type a) (type b)) eqn:E.
  - apply String.compare_eq_iff in E as E'. rewrite E', String.eqb_refl.
    replace (str_lt (type b) (type b)) with false; [apply str_lt_iff|].
    symmetry. apply not_true_iff_false. rewrite str_lt_iff, compare_refl. done.
  - apply str_lt_iff in E as ->. done.
  - replace (str_lt (type a) (type b)) with false.
    + replace (type a =? type b)%string with false; [done|].
      symmetry. apply String.eqb_neq. intros E'. rewrite E', compare_refl in E. done.
    + symmetry. apply not_true_iff_false. rewrite str_lt_iff, E. done.
Qed.

Lemma key_cmp_lt_trans a b c :
  key_cmp a b = Lt → key_cmp b c = Lt → key_cmp a c = Lt.
Proof.
  unfold key_cmp. intros H1 H2.
  destruct (String.compare (type a) (type b)) eqn:E1; [| |done].
  - apply String.compare_eq_iff in E1. rewrite E1.
    destruct (String.compare (type b) (type c)) eqn:E2; [|done..].
    by eapply compare_lt_trans.
  - destruct (String.compare (type b) (type c)) eqn:E2; [| |done].
    + apply String.compare_eq_iff in E2. by rewrite <- E2, E1.
    + by rewrite (compare_lt_trans _ _ _ E1 E2).
Qed.

Lemma key_cmp_antisym a b : key_cmp a b = CompOpp (key_cmp b a).
Proof.
  unfold key_cmp. rewrite (String.compare_antisym (type a)).
  destruct (String.compare (type b) (type a)); simpl; [|done..].
  apply String.compare_antisym.
Qed.

Lemma key_cmp_eq_lt a b c :
  key_cmp a b = Eq → key_cmp b c = Lt → key_cmp a c = Lt.
Proof.
  unfold key_cmp.
  destruct (String.compare (type a) (type b)) eqn:E1; [|done..].
  intros E3. apply String.compare_eq_iff in E1, E3. by rewrite E1, E3.
Qed.

Lemma key_cmp_lt_eq a b c :
  key_cmp a b = Lt → key_cmp b c = Eq → key_cmp a c = Lt.
Proof.
  unfold key_cmp. intros H.
  destruct (String.compare (type b) (type c)) eqn:E1; [|done..].
  intros E3. apply String.compare_eq_iff in E1, E3. by rewrite <- E1, <- E3.
Qed.

Lemma key_le_cmp a b : key_le a b ↔ key_cmp a b ≠ Gt.
Proof.
  unfold key_le. rewrite <- not_true_iff_false, key_lt_cmp, key_cmp_antisym.
  destruct (key_cmp a b); simpl; split; congruence.
Qed.

Lemma key_le_trans a b c : key_le a b → key_le b c → key_le a c.
Proof.
  rewrite !key_le_cmp. intros H1 H2 H3.
  rewrite key_cmp_antisym in H3.
  destruct (key_cmp c a) eqn:E; try done. clear H3.
  destruct (key_cmp a b) eqn:E1; [| |done].
  - pose proof (key_cmp_lt_eq _ _ _ E E1) as E'.
    rewrite key_cmp_antisym, E' in H2. done.
  - pose proof (key_cmp_lt_trans _ _ _ E E1) as E'.
    rewrite key_cmp_antisym, E' in H2. done.
Qed.

Lemma key_lt_le a b : key_lt a b = true → key_le a b.
Proof.
  rewrite key_lt_cmp, key_le_cmp. congruence.
Qed.

Lemma insert_sorted_perm x l : Permutation (insert_sorted x l) (x :: l).
Proof.
  induction l as [|y l IH]; simpl; [done|].
  destruct (key_lt y x); [|done].
  rewrite IH. apply perm_swap.
Qed.

Lemma sorted_perm l : Permutation (sorted l) l.
Proof.
  induction l as [|x l IH]; simpl; [done|].
  rewrite insert_sorted_perm. by constructor.
Qed.

Lemma insert_sorted_sorted x l :
  StronglySorted key_le l → StronglySorted key_le (insert_sorted x l).
Proof.
  induction 1 as [|y l Hs IH Hy]; simpl.
  - repeat constructor.
  - destruct (key_lt y x) eqn:E.
    + constructor; [done|].
      rewrite Forall_forall in *. intros z Hz.
      rewrite insert_sorted_perm in Hz. apply elem_of_cons in Hz as [->|Hz].
      * by apply key_lt_le.
      * by apply Hy.
    + constructor; [by constructor|].
      constructor; [done|].
      rewrite Forall_forall in *. intros z Hz.
      eapply key_le_trans; [exact E|]. by apply Hy.
Qed.

Lemma sorted_sorted l : StronglySorted key_le (sorted l).
Proof.
  induction l as [|x l IH]; simpl; [constructor|].
  by apply insert_sorted_sorted.
Qed.

(** C9.  The result of a scan is sorted ascending by the pair
    (type, name): no descriptor is followed, at any distance, by one
    with a smaller key. *)
Theorem discover_apps_sorted self fs :
  StronglySorted key_le (discover_apps self fs).
Proof. apply sorted_sorted. Qed.

Lemma elem_of_collect {A B} (f : A → option B) l b :
  b ∈ collect f l ↔ ∃ a, a ∈ l ∧ f a = Some b.
Proof.
  unfold collect. rewrite list_elem_of_In, in_flat_map. split.
  - intros (a & Ha & Hb). exists a. rewrite list_elem_of_In. split; [done|].
    destruct (f a); simpl in Hb; [|done]. destruct Hb as [->|[]]. done.
  - intros (a & Ha & Hb). exists a. rewrite <- list_elem_of_In.
    split; [done|]. rewrite Hb. by left.
Qed.

Lemma analyze_app_name self e d : _analyze_app self e = Some d → name d = entry_name e.
Proof.
  unfold _analyze_app. destruct (main_py e) as [[]|]; [|done..].
  by intros [= <-].
Qed.

Lemma analyze_app_path self e d :
  _analyze_app self e = Some d →
  path d = joinpath (joinpath (project_root self) "apps") (entry_name e).
Proof.
  unfold _analyze_app. destruct (main_py e) as [[]|]; [|done..].
  by intros [= <-].
Qed.

Lemma analyze_script_path self s d :
  _analyze_script self s = Some d → from_scripts self d.
Proof.
  unfold _analyze_script. destruct (script_text s); [|done].
  by intros [= <-].
Qed.

Lemma apps_not_scripts root n :
  joinpath (joinpath root "apps") n ≠ joinpath root "scripts".
Proof.
  unfold joinpath. intros E.
  induction root as [|c root IH]; [done|].
  apply IH. by injection E.
Qed.

Lemma scan_apps_not_scripts self fs d :
  d ∈ scan_apps self fs → ¬ from_scripts self d.
Proof.
  unfold scan_apps. destruct (apps_dir fs) as [entries|]; [|by intros ?%elem_of_nil].
  intros (e & _ & He)%elem_of_collect.
  destruct (_ && _); [|done].
  unfold from_scripts. rewrite (analyze_app_path _ _ _ He).
  apply apps_not_scripts.
Qed.

Lemma scan_scripts_from_scripts self fs d :
  d ∈ scan_scripts self fs → from_scripts self d.
Proof.
  unfold scan_scripts. destruct (scripts_dir fs) as [files|]; [|by intros ?%elem_of_nil].
  intros (e & _ & He)%elem_of_collect.
  destruct (_ && _); [|done]. by eapply analyze_script_path.
Qed.

Lemma collect_names self (g : app_entry → bool) entries :
  NoDup (entry_name <$> entries) →
  NoDup (name <$> collect (λ e, if g e then _analyze_app self e else None) entries).
Proof.
  induction entries as [|e es IH]; simpl; [constructor|].
  intros [Hn Hes]%NoDup_cons. specialize (IH Hes).
  destruct (g e); [|done].
  destruct (_analyze_app self e) as [d|] eqn:E; [|done]. simpl.
  apply NoDup_cons. split; [|done].
  rewrite (analyze_app_name _ _ _ E).
  intros (d' & Hd' & (e' & He' & E')%elem_of_collect)%list_elem_of_fmap.
  destruct (g e'); [|done].
  apply analyze_app_name in E'. apply Hn, list_elem_of_fmap.
  exists e'. split; [congruence|done].
Qed.

Lemma scan_apps_names self fs :
  (∀ entries, apps_dir fs = Some entries → NoDup (entry_name <$> entries)) →
  NoDup (name <$> scan_apps self fs).
Proof.
  intros H. unfold scan_apps.
  destruct (apps_dir fs) as [entries|]; [|constructor].
  by apply collect_names, H.
Qed.

Lemma nodup_fmap_lookup {A B} (f : A → B) (l : list A) i j x y :
  NoDup (f <$> l) → l !! i = Some x → l !! j = Some y → f x = f y → i = j.
Proof.
  intros N Hi Hj E. apply (NoDup_lookup _ i j (f x) N).
  - by rewrite list_lookup_fmap, Hi.
  - by rewrite list_lookup_fmap, Hj, E.
Qed.

Lemma lookup_filter_pos {A} (P : A → Prop) `{∀ x, Decision (P x)} (l : list A) :
  ∀ i x, l !! i = Some x → P x →
    filter P l !! length (filter P (take i l)) = Some x.
Proof.
  induction l as [|a l IH]; intros [|i] x; simpl; try done.
  - intros [= ->] Hx. by rewrite filter_cons_True.
  - intros Hi Hx. rewrite !filter_cons. destruct (decide (P a)); simpl; eauto.
Qed.

Lemma filter_take_length_inj {A} (P : A → Prop) `{∀ x, Decision (P x)}
    (l : list A) : ∀ i j x y,
  l !! i = Some x → l !! j = Some y → P x → P y →
  length (filter P (take i l)) = length (filter P (take j l)) → i = j.
Proof.
  induction l as [|a l IH]; intros [|i] [|j] x y; simpl; try done.
  - intros [= ->] Hj Hx Hy. rewrite filter_cons_True by done. done.
  - intros Hi [= ->] Hx Hy. rewrite filter_cons_True by done. done.
  - intros Hi Hj Hx Hy. rewrite !filter_cons.
    destruct (decide (P a)); simpl; intros E; f_equal; eapply IH; eauto.
Qed.

Lemma filter_all {A} (P : A → Prop) `{∀ x, Decision (P x)} (l : list A) :
  Forall P l → filter P l = l.
Proof.
  induction 1 as [|x l Hx _ IH]; [done|].
  by rewrite filter_cons_True, IH.
Qed.

Lemma filter_none {A} (P : A → Prop) `{∀ x, Decision (P x)} (l : list A) :
  Forall (λ x, ¬ P x) l → filter P l = [].
Proof.
  induction 1 as [|x l Hx _ IH]; [done|].
  by rewrite filter_cons_False.
Qed.

(** C5 (amended).  Two descriptors of one scan that share a name are
    never both from the applications directory: at least one of them
    was built from a file of the scripts directory. *)
Theorem same_name_needs_a_script self fs i j d1 d2 :
  (∀ entries, apps_dir fs = Some entries → NoDup (entry_name <$> entries)) →
  i ≠ j →
  discover_apps self fs !! i = Some d1 →
  discover_apps self fs !! j = Some d2 →
  name d1 = name d2 →
  from_scripts self d1 ∨ from_scripts self d2.
Proof.
  intros Hfs Hij H1 H2 Hn.
  destruct (decide (from_scripts self d1)) as [|N1]; [by left|].
  destruct (decide (from_scripts self d2)) as [|N2]; [by right|].
  exfalso. apply Hij.
  set (P := λ d, ¬ from_scripts self d).
  set (l := discover_apps self fs) in *.
  assert (filter P l ≡ₚ scan_apps self fs) as Hp.
  { unfold l, discover_apps. rewrite sorted_perm, filter_app.
    rewrite (filter_all P (scan_apps self fs)).
    - rewrite (filter_none P (scan_scripts self fs));
        [by rewrite app_nil_r|].
      apply Forall_forall. intros d Hd HP. apply HP.
      by eapply scan_scripts_from_scripts.
    - apply Forall_forall. intros d Hd. by eapply scan_apps_not_scripts. }
  assert (NoDup (name <$> filter P l)) as Nd.
  { rewrite Hp. by apply scan_apps_names. }
  eapply (filter_take_length_inj P l i j d1 d2); try done.
  eapply (nodup_fmap_lookup name (filter P l)); [done| | |done];
    by apply lookup_filter_pos.
Qed.

(** The application [apps/tool] and the script [scripts/tool.py]. *)
Lemma same_name_needs_a_script_witness :
  let d1 := mkAppInfo "tool" "/repo/apps/tool" "cli" "/repo/apps/tool/main.py"
              "Python application" "uv run python -m apps.tool.main" None in
  let d2 := mkAppInfo "tool" "/repo/scripts" "script" "/repo/scripts/tool.py"
              "Python application" "uv run python scripts/tool.py" None in
  ((∀ entries, apps_dir same_name_fs = Some entries →
      NoDup (entry_name <$> entries)) ∧
   0%nat ≠ 1%nat ∧
   discover_apps demo_discovery same_name_fs !! 0%nat = Some d1 ∧
   discover_apps demo_discovery same_name_fs !! 1%nat = Some d2 ∧
   name d1 = name d2) ∧
  (from_scripts demo_discovery d1 ∨ from_scripts demo_discovery d2).
Proof.
  assert (∀ entries, apps_dir same_name_fs = Some entries →
            NoDup (entry_name <$> entries)) as Hfs.
  { intros entries [= <-]. apply NoDup_singleton. }
  assert (0%nat ≠ 1%nat) as H01 by discriminate.
  simpl. split; [split_and!; [exact Hfs|exact H01|reflexivity..]|].
  apply (same_name_needs_a_script demo_discovery same_name_fs 0 1 _ _
           Hfs H01 eq_refl eq_refl eq_refl).
Defined.

(** C5 as stated fails: an application directory [tool] and a script
    [tool.py] give two descriptors named [tool]. *)
Lemma same_name_app_and_script :
  name <$> discover_apps demo_discovery same_name_fs = ["tool"; "tool"].
Proof. by vm_compute. Qed.

Lemma int_digits_nonneg s : ∀ acc n,
  (0 ≤ acc)%Z → int_digits s acc = Ok n → (0 ≤ n)%Z.
Proof.
  induction s as [|c s IH]; intros acc n Hacc; simpl.
  - by intros [= <-].
  - destruct (is_digit c); [|done]. apply IH. lia.
Qed.

Lemma py_int_nonneg s n : py_int s = Ok n → (0 ≤ n)%Z.
Proof.
  unfold py_int. destruct s; [done|]. by apply int_digits_nonneg.
Qed.

Lemma port_loop_nonneg ps content n :
  port_loop ps content = Some n → (0 ≤ n)%Z.
Proof.
  induction ps as [|p ps IH]; simpl; [done|].
  destruct (re_first p content) as [g|]; [|done].
  destruct (py_int g) as [m|e] eqn:E; [|done].
  intros [= <-]. by eapply py_int_nonneg.
Qed.

Lemma sorted_elem l d : d ∈ sorted l ↔ d ∈ l.
Proof. by rewrite sorted_perm. Qed.

(** C6 (amended).  In every descriptor of a scan, a port is present
    only when the type is [web], and a port that is present is a
    non-negative integer. *)
Theorem port_only_for_web self fs d p :
  d ∈ discover_apps self fs → port d = Some p →
  type d = "web" ∧ (0 ≤ p)%Z.
Proof.
  unfold discover_apps. rewrite sorted_elem, elem_of_app.
  intros [Hd|Hd] Hp.
  - unfold scan_apps in Hd.
    destruct (apps_dir fs) as [entries|]; [|by apply elem_of_nil in Hd].
    apply elem_of_collect in Hd as (e & _ & He).
    destruct (_ && _); [|done].
    unfold _analyze_app in He. destruct (main_py e) as [[content|]|]; [|done..].
    injection He as <-. simpl in Hp.
    destruct (str_eq _ "web") eqn:Et; [|done].
    split; [by apply String.eqb_eq in Et|].
    by eapply port_loop_nonneg.
  - unfold scan_scripts in Hd.
    destruct (scripts_dir fs) as [files|]; [|by apply elem_of_nil in Hd].
    apply elem_of_collect in Hd as (e & _ & He).
    destruct (_ && _); [|done].
    unfold _analyze_script in He. destruct (script_text e); [|done].
    by injection He as <-.
Qed.

(** A FastAPI entry file that passes [port=8000]. *)
Lemma port_only_for_web_witness :
  let d := mkAppInfo "api" "/repo/apps/api" "web" "/repo/apps/api/main.py"
             "Python application" "uv run uvicorn apps.api.main:app --reload"
             (Some 8000%Z) in
  (d ∈ discover_apps demo_discovery port_8000_fs ∧ port d = Some 8000%Z) ∧
  type d = "web" ∧ (0 ≤ 8000)%Z.
Proof.
  assert (mkAppInfo "api" "/repo/apps/api" "web" "/repo/apps/api/main.py"
            "Python application" "uv run uvicorn apps.api.main:app --reload"
            (Some 8000%Z) ∈ discover_apps demo_discovery port_8000_fs) as Hd.
  { vm_compute. left. }
  simpl. split; [split; [exact Hd|reflexivity]|].
  apply (port_only_for_web demo_discovery port_8000_fs _ 8000%Z Hd eq_refl).
Defined.

(** C6 as stated fails: the text [port=0] in a web application gives
    the port 0, which is not positive. *)
Lemma port_zero_is_extracted :
  ∃ d, d ∈ discover_apps demo_discovery port_zero_fs ∧
       type d = "web" ∧ port d = Some 0%Z.
Proof.
  eexists. split; [vm_compute; left|]. by vm_compute.
Qed.

(** *** Further properties of discovery *)

Lemma elem_of_discover self fs d :
  d ∈ discover_apps self fs ↔ d ∈ scan_apps self fs ∨ d ∈ scan_scripts self fs.
Proof. unfold discover_apps. by rewrite sorted_elem, elem_of_app. Qed.

Lemma elem_of_scan_apps self fs d :
  d ∈ scan_apps self fs ↔
  ∃ entries e, apps_dir fs = Some entries ∧ e ∈ entries ∧
    is_dir e = true ∧ entry_name e ≠ "__pycache__" ∧
    _analyze_app self e = Some d.
Proof.
  unfold scan_apps. destruct (apps_dir fs) as [entries|]; split.
  - intros (e & He & Hd)%elem_of_collect.
    destruct (is_dir e) eqn:Hdir; [|done].
    destruct (str_eq (entry_name e) "__pycache__") eqn:Hn; [done|].
    exists entries, e. split_and!; [done..| |done].
    by apply String.eqb_neq.
  - intros (? & e & [= <-] & He & Hdir & Hn & Hd).
    apply elem_of_collect. exists e. split; [done|].
    apply String.eqb_neq in Hn. unfold str_eq. by rewrite Hdir, Hn.
  - by intros ?%elem_of_nil.
  - by intros (? & ? & ? & _).
Qed.

Lemma elem_of_scan_scripts self fs d :
  d ∈ scan_scripts self fs ↔
  ∃ files f, scripts_dir fs = Some files ∧ f ∈ files ∧
    endswith ".py" (file_name f) = true ∧ file_name f ≠ "__init__.py" ∧
    _analyze_script self f = Some d.
Proof.
  unfold scan_scripts. destruct (scripts_dir fs) as [files|]; split.
  - intros (f & Hf & Hd)%elem_of_collect.
    destruct (endswith ".py" (file_name f)) eqn:Hpy; [|done].
    destruct (str_eq (file_name f) "__init__.py") eqn:Hn; [done|].
    exists files, f. split_and!; [done..| |done].
    by apply String.eqb_neq.
  - intros (? & f & [= <-] & Hf & Hpy & Hn & Hd).
    apply elem_of_collect. exists f. split; [done|].
    apply String.eqb_neq in Hn. unfold str_eq. by rewrite Hpy, Hn.
  - by intros ?%elem_of_nil.
  - by intros (? & ? & ? & _).
Qed.

Lemma determine_app_type_category content app :
  _determine_app_type content app ∈ categories.
Proof.
  unfold _determine_app_type, categories.
  repeat (match goal with |- context [if ?b then _ else _] => destruct b end);
    set_solver.
Qed.

(** X12.  The type of every descriptor of a scan is one of [web],
    [cli], [tui], [gui], [script]. *)
Theorem type_is_a_category self fs d :
  d ∈ discover_apps self fs → type d ∈ categories.
Proof.
  intros [Hd|Hd]%elem_of_discover.
  - apply elem_of_scan_apps in Hd as (entries & e & _ & _ & _ & _ & Hd).
    unfold _analyze_app in Hd.
    destruct (main_py e) as [[content|]|]; [|done..].
    injection Hd as <-. simpl. apply determine_app_type_category.
  - apply elem_of_scan_scripts in Hd as (files & f & _ & _ & _ & _ & Hd).
    unfold _analyze_script in Hd. destruct (script_text f); [|done].
    injection Hd as <-. simpl. unfold categories. set_solver.
Qed.

Lemma split_ws_uv_run rest :
  split_ws ("uv run " ++ rest)%string = "uv" :: "run" :: split_ws rest.
Proof. reflexivity. Qed.

(** X13.  The command of every descriptor of a scan starts with
    [uv run], so the argument vector that [run_app] splits it into is
    never empty and starts with [uv], [run]. *)
Theorem command_runs_uv self fs d :
  d ∈ discover_apps self fs →
  ∃ rest, command d = ("uv run " ++ rest)%string ∧
    split_ws (command d) = "uv" :: "run" :: split_ws rest.
Proof.
  intros Hd.
  assert (∃ rest, command d = ("uv run " ++ rest)%string) as [rest E].
  { apply elem_of_discover in Hd as [Hd|Hd].
    - apply elem_of_scan_apps in Hd as (entries & e & _ & _ & _ & _ & Hd).
      unfold _analyze_app in Hd.
      destruct (main_py e) as [[content|]|]; [|done..].
      injection Hd as <-. simpl. unfold _generate_command.
      repeat (match goal with |- context [if ?b then _ else _] =>
                destruct b end); eexists; reflexivity.
    - apply elem_of_scan_scripts in Hd as (files & f & _ & _ & _ & _ & Hd).
      unfold _analyze_script in Hd. destruct (script_text f); [|done].
      injection Hd as <-. simpl. eexists; reflexivity. }
  exists rest. split; [done|]. rewrite E. apply split_ws_uv_run.
Qed.

Lemma prefix_inv p : ∀ s, String.prefix p s = true → ∃ post, s = (p ++ post)%string.
Proof.
  induction p as [|a p IH]; intros s; simpl.
  - intros _. by exists s.
  - destruct s as [|b s]; simpl; [done|].
    destruct (ascii_dec a b) as [->|]; [|done].
    intros (post & ->)%IH. by exists post.
Qed.

Lemma contains_inv sub s :
  contains sub s = true → ∃ pre post, s = (pre ++ sub ++ post)%string.
Proof.
  induction s as [|c s IH]; cbn [contains].
  - rewrite orb_false_r. intros (post & E)%prefix_inv. by exists "", post.
  - intros [(post & E)%prefix_inv|(pre & post & ->)%IH]%orb_true_iff.
    + by exists "", post.
    + by exists (String c pre), post.
Qed.

Lemma lower_split a : ∀ s b,
  lower s = (a ++ b)%string →
  ∃ a' b', s = (a' ++ b')%string ∧ lower a' = a ∧ lower b' = b.
Proof.
  induction a as [|c a IH]; intros s b E.
  - by exists "", s.
  - destruct s as [|c' s]; [done|]. injection E as <- E.
    destruct (IH s b E) as (a' & b' & -> & <- & <-).
    by exists (String c' a'), b'.
Qed.

Lemma any_in_marked markers content :
  Forall (λ m, lower m = m) markers →
  any_in markers (lower content) = true ↔ marked markers content.
Proof.
  intros Hlow. unfold any_in, marked. rewrite existsb_exists. split.
  - intros (m & Hm & (pre & post & E)%contains_inv).
    apply list_elem_of_In in Hm. exists m. split; [done|].
    apply lower_split in E as (pre' & rest & -> & _ & E).
    apply lower_split in E as (mid & post' & -> & E & _).
    exists pre', mid, post'. split; [done|].
    rewrite Forall_forall in Hlow. by rewrite (Hlow m Hm).
  - intros (m & Hm & pre & mid & post & -> & E).
    exists m. split; [by apply list_elem_of_In|].
    rewrite Forall_forall in Hlow.
    rewrite !lower_append, E, (Hlow m Hm). apply contains_append.
Qed.

Lemma markers_lowercase :
  Forall (λ m, lower m = m) tui_markers ∧ Forall (λ m, lower m = m) gui_markers
  ∧ Forall (λ m, lower m = m) cli_markers ∧ Forall (λ m, lower m = m) web_markers.
Proof. split_and!; repeat constructor. Qed.

Lemma any_in_unmarked markers content :
  Forall (λ m, lower m = m) markers →
  any_in markers (lower content) = false ↔ ¬ marked markers content.
Proof.
  intros Hlow. rewrite <- (any_in_marked markers content Hlow).
  by destruct (any_in markers (lower content)).
Qed.

(** X14.  On an ASCII text without a terminal-ui marker the
    classification goes on in order: a graphical marker gives [gui];
    else a command-line marker gives [cli]; else a web marker, or a
    [templates] or [static] subdirectory, gives [web]; else the type
    is [script].  Markers count in any mix of upper and lower case.
    (Outside ASCII, [str.lower] can produce the letters of a marker
    from other characters, so that the absence of a marker cannot be
    read off the text in this way.) *)
Theorem classification_after_tui content app :
  all_chars is_ascii content = true →
  ¬ marked tui_markers content →
  (marked gui_markers content → _determine_app_type content app = "gui") ∧
  (¬ marked gui_markers content → marked cli_markers content →
   _determine_app_type content app = "cli") ∧
  (¬ marked gui_markers content → ¬ marked cli_markers content →
   marked web_markers content ∨ has_templates app = true
   ∨ has_static app = true →
   _determine_app_type content app = "web") ∧
  (¬ marked gui_markers content → ¬ marked cli_markers content →
   ¬ marked web_markers content → has_templates app = false →
   has_static app = false →
   _determine_app_type content app = "script").
Proof.
  destruct markers_lowercase as (Lt & Lg & Lc & Lw).
  intros _ Ht%(any_in_unmarked _ _ Lt). unfold _determine_app_type.
  rewrite Ht. split_and!.
  - by intros ->%(any_in_marked _ _ Lg).
  - by intros ->%(any_in_unmarked _ _ Lg) ->%(any_in_marked _ _ Lc).
  - intros ->%(any_in_unmarked _ _ Lg) ->%(any_in_unmarked _ _ Lc) H.
    destruct (any_in web_markers (lower content)) eqn:Hw; [done|].
    destruct H as [H%(any_in_marked _ _ Lw)|[-> | ->]]; [congruence|done|].
    by rewrite orb_true_r.
  - by intros ->%(any_in_unmarked _ _ Lg) ->%(any_in_unmarked _ _ Lc)
        ->%(any_in_unmarked _ _ Lw) -> ->.
Qed.

(** Graphical, command-line and web markers together: [gui]. *)
Lemma classification_after_tui_witness :
  let content := "import Tkinter, typer, flask" in
  let app := mkAppEntry "desk" true None false true in
  all_chars is_ascii content = true ∧
  ¬ marked tui_markers content ∧
  marked gui_markers content ∧
  _determine_app_type content app = "gui".
Proof.
  destruct markers_lowercase as (Lt & Lg & _).
  assert (¬ marked tui_markers "import Tkinter, typer, flask") as Ht
    by (by apply (any_in_unmarked _ _ Lt)).
  assert (marked gui_markers "import Tkinter, typer, flask") as Hg
    by (by apply (any_in_marked _ _ Lg)).
  simpl. split_and!; [done..|].
  by apply (classification_after_tui "import Tkinter, typer, flask"
              (mkAppEntry "desk" true None false true) eq_refl Ht).
Defined.

(** Every directory of the applications directory, other than
    [__pycache__], whose [main.py] is read is listed. *)
Lemma scan_lists_readable_app self fs entries e content :
  apps_dir fs = Some entries → e ∈ entries →
  is_dir e = true → entry_name e ≠ "__pycache__" →
  main_py e = Some (Text content) →
  ∃ d, d ∈ discover_apps self fs ∧
    name d = entry_name e ∧
    type d = _determine_app_type content e ∧
    description d = _extract_description content ∧
    main_file d = joinpath (path d) "main.py".
Proof.
  intros Hfs He Hdir Hn Hmain.
  eexists. split.
  - apply elem_of_discover. left. apply elem_of_scan_apps.
    exists entries, e. split_and!; [done..|].
    unfold _analyze_app. by rewrite Hmain.
  - done.
Qed.

(** Every descriptor that does not come from the scripts directory
    comes from a directory with a [main.py] that is read. *)
Lemma scan_app_has_entry_file self fs d :
  d ∈ discover_apps self fs → ¬ from_scripts self d →
  ∃ entries e content, apps_dir fs = Some entries ∧ e ∈ entries ∧
    entry_name e = name d ∧ is_dir e = true ∧
    entry_name e ≠ "__pycache__" ∧ main_py e = Some (Text content).
Proof.
  intros [Hd|Hd]%elem_of_discover Hs.
  - apply elem_of_scan_apps in Hd as (entries & e & Hfs & He & Hdir & Hn & Hd).
    unfold _analyze_app in Hd.
    destruct (main_py e) as [[content|]|] eqn:Hmain; [|done..].
    injection Hd as <-. by exists entries, e, content.
  - by apply scan_scripts_from_scripts in Hd.
Qed.

Lemma str_app_assoc (a b c : string) : ((a ++ b) ++ c = a ++ (b ++ c))%string.
Proof.
  induction a as [|x a IH]; [done|].
  change (String x ((a ++ b) ++ c) = String x (a ++ (b ++ c)))%string.
  by rewrite IH.
Qed.

Lemma str_app_nil_r (a : string) : (a ++ "")%string = a.
Proof.
  induction a as [|x a IH]; [done|].
  change (String x (a ++ "") = String x a)%string. by rewrite IH.
Qed.

Lemma str_rev_onto_append s : ∀ acc,
  str_rev_onto s acc = (str_rev_onto s "" ++ acc)%string.
Proof.
  induction s as [|c s IH]; intros acc; simpl; [done|].
  rewrite IH, (IH (String c "")). by rewrite str_app_assoc.
Qed.

Lemma str_rev_append a b : str_rev (a ++ b) = (str_rev b ++ str_rev a)%string.
Proof.
  unfold str_rev. induction a as [|c a IH]; simpl.
  - by rewrite str_app_nil_r.
  - rewrite str_rev_onto_append, IH, (str_rev_onto_append a (String c "")).
    by rewrite str_app_assoc.
Qed.

Lemma str_rev_involutive s : str_rev (str_rev s) = s.
Proof.
  induction s as [|c s IH]; [done|].
  change (String c s) with (String c "" ++ s)%string at 1.
  rewrite !str_rev_append, IH. done.
Qed.

Lemma str_app_inv_tail (a b c : string) :
  (a ++ c)%string = (b ++ c)%string → a = b.
Proof.
  intros E. apply (f_equal str_rev) in E. rewrite !str_rev_append in E.
  apply (inj (String.app (str_rev c))) in E.
  by rewrite <- (str_rev_involutive a), E, str_rev_involutive.
Qed.

Lemma endswith_append a b : endswith b (a ++ b) = true.
Proof. unfold endswith. rewrite str_rev_append. apply prefix_append. Qed.

Lemma rfind_append c a : ∀ b i,
  rfind c b = Some i → rfind c (a ++ b) = Some (String.length a + i)%nat.
Proof.
  induction a as [|x a IH]; intros b i E; simpl; [done|].
  by rewrite (IH b i E).
Qed.

Lemma substring_append a b : String.substring 0 (String.length a) (a ++ b) = a.
Proof. induction a as [|c a IH]; simpl; [by destruct b|by rewrite IH]. Qed.

Lemma length_append a b :
  String.length (a ++ b) = (String.length a + String.length b)%nat.
Proof. induction a as [|c a IH]; simpl; [done|by rewrite IH]. Qed.

Lemma stem_py n : n ≠ "" → stem (n ++ ".py") = n.
Proof.
  intros Hn. unfold stem.
  rewrite (rfind_append "." n ".py" 0 eq_refl), Nat.add_0_r.
  rewrite length_append. simpl.
  destruct n as [|c n]; [done|]. simpl String.length.
  replace (0 <? S (String.length n))%nat with true
    by (symmetry; apply Nat.ltb_lt; lia).
  replace (S (String.length n) <? S (String.length n) + 3 - 1)%nat with true
    by (symmetry; apply Nat.ltb_lt; lia).
  apply (substring_append (String c n) ".py").
Qed.

(** A file [n.py] of the scripts directory that is read is listed. *)
Lemma scan_lists_readable_script self fs files f n content :
  scripts_dir fs = Some files → f ∈ files →
  file_name f = (n ++ ".py")%string → n ≠ "" → n ≠ "__init__" →
  script_text f = Text content →
  ∃ d, d ∈ discover_apps self fs ∧
    name d = n ∧ type d = "script" ∧ port d = None ∧
    description d = _extract_description content ∧
    command d = ("uv run python scripts/" ++ n ++ ".py")%string.
Proof.
  intros Hfs Hf Hname Hn Hinit Htext.
  eexists. split.
  - apply elem_of_discover. right. apply elem_of_scan_scripts.
    exists files, f. split_and!; [done..| | |].
    + rewrite Hname. apply endswith_append.
    + rewrite Hname. intros E. apply Hinit.
      by apply (str_app_inv_tail n "__init__" ".py").
    + unfold _analyze_script. by rewrite Htext.
  - simpl. rewrite Hname, stem_py by done. done.
Qed.

(** X18.  Every descriptor from the scripts directory comes from a
    readable file there whose name ends in [.py] and is not
    [__init__.py]; it is named by the stem of the file name, has type
    [script] and no port. *)
Theorem listed_script_has_file self fs d :
  d ∈ discover_apps self fs → from_scripts self d →
  ∃ files f content, scripts_dir fs = Some files ∧ f ∈ files ∧
    endswith ".py" (file_name f) = true ∧ file_name f ≠ "__init__.py" ∧
    script_text f = Text content ∧
    name d = stem (file_name f) ∧ type d = "script" ∧ port d = None ∧
    main_file d = joinpath (path d) (file_name f).
Proof.
  intros [Hd|Hd]%elem_of_discover Hs.
  - by apply scan_apps_not_scripts in Hd.
  - apply elem_of_scan_scripts in Hd as (files & f & Hfs & Hf & Hpy & Hn & Hd).
    unfold _analyze_script in Hd.
    destruct (script_text f) as [content|] eqn:Ht; [|done].
    injection Hd as <-. by exists files, f, content.
Qed.

Lemma take_while_spec cls s :
  all_chars cls (take_while cls s) = true ∧
  ∃ post, s = (take_while cls s ++ post)%string.
Proof.
  induction s as [|c s [IH1 [post IH2]]]; simpl; [by eauto|].
  destruct (cls c) eqn:E; simpl.
  - rewrite E, IH1. split; [done|]. exists post.
    change (String c s = String c (take_while cls s ++ post))%string.
    by rewrite <- IH2.
  - split; [done|]. by exists (String c s).
Qed.

Lemma match_group_inv cls s g :
  match_group cls s = Some g →
  g ≠ "" ∧ all_chars cls g = true ∧ ∃ pre post, s = (pre ++ g ++ post)%string.
Proof.
  unfold match_group. destruct (take_while_spec cls s) as [H1 [post H2]].
  destruct (take_while cls s) as [|c t] eqn:E; [done|].
  intros [= <-]. split_and!; [done..|]. by exists "", post.
Qed.

Lemma re_match_here_inv its cls : ∀ s g,
  re_match_here its cls s = Some g →
  g ≠ "" ∧ all_chars cls g = true ∧ ∃ pre post, s = (pre ++ g ++ post)%string.
Proof.
  induction its as [|[c|p] its IH]; intros s g; simpl.
  - apply match_group_inv.
  - destruct s as [|a s]; [done|].
    destruct (Ascii.eqb _ _); [|done].
    intros (Hg & Hc & pre & post & ->)%IH. split_and!; [done..|].
    by exists (String a pre), post.
  - revert g. induction s as [|a s IHs]; intros g.
    + apply IH.
    + destruct (p a).
      * match goal with |- context [match ?x with Some _ => _ | None => _ end] =>
          destruct x as [g'|] eqn:E end.
        -- intros [= <-]. destruct (IHs _ eq_refl) as (Hg & Hc & pre & post & ->).
           split_and!; [done..|]. by exists (String a pre), post.
        -- apply IH.
      * apply IH.
Qed.

Lemma re_first_inv p s : ∀ g,
  re_first p s = Some g →
  g ≠ "" ∧ all_chars (group p) g = true
  ∧ ∃ pre post, s = (pre ++ g ++ post)%string.
Proof.
  induction s as [|c s IH]; intros g; simpl.
  - destruct (re_match_here _ _ _) eqn:E; [|done].
    intros [= <-]. by apply re_match_here_inv in E.
  - destruct (re_match_here _ _ _) eqn:E.
    + intros [= <-]. by apply re_match_here_inv in E.
    + intros (Hg & Hc & pre & post & ->)%IH. split_and!; [done..|].
      by exists (String c pre), post.
Qed.

Lemma port_loop_inv ps content n :
  Forall (λ p, group p = is_digit) ps →
  port_loop ps content = Some n →
  ∃ pre g post, content = (pre ++ g ++ post)%string ∧ g ≠ "" ∧
    all_chars is_digit g = true ∧ py_int g = Ok n.
Proof.
  induction 1 as [|p ps Hp _ IH]; simpl; [done|].
  destruct (re_first p content) as [g|] eqn:E; [|done].
  destruct (py_int g) as [m|e] eqn:Ei; [|done].
  intros [= <-]. apply re_first_inv in E as (Hg & Hc & pre & post & ->).
  rewrite Hp in Hc. by exists pre, g, post.
Qed.

(** X19.  A port that [_extract_port] returns is the value of a run of
    digits, not empty, that occurs in the text. *)
Theorem extracted_port_occurs content n :
  _extract_port content = Some n →
  ∃ pre g post, content = (pre ++ g ++ post)%string ∧ g ≠ "" ∧
    all_chars is_digit g = true ∧ py_int g = Ok n.
Proof. apply port_loop_inv. unfold port_patterns. by repeat constructor. Qed.

(** [port = 8080] inside a call. *)
Lemma extracted_port_occurs_witness :
  let content := "app.run(host, port = 8080)" in
  _extract_port content = Some 8080%Z ∧
  ∃ pre g post, content = (pre ++ g ++ post)%string ∧ g ≠ "" ∧
    all_chars is_digit g = true ∧ py_int g = Ok 8080%Z.
Proof.
  simpl. split; [reflexivity|].
  apply (extracted_port_occurs "app.run(host, port = 8080)" 8080%Z).
  reflexivity.
Defined.












Lemma tool_app_listed : tool_app ∈ discover_apps demo_discovery same_name_fs.
Proof. vm_compute. left. Qed.

Lemma tool_script_listed :
  tool_script ∈ discover_apps demo_discovery same_name_fs.
Proof. vm_compute. right. left. Qed.

(** The application of [same_name_fs]. *)
Lemma type_is_a_category_witness :
  tool_app ∈ discover_apps demo_discovery same_name_fs ∧
  type tool_app ∈ categories.
Proof.
  split; [apply tool_app_listed|].
  apply (type_is_a_category demo_discovery same_name_fs tool_app
           tool_app_listed).
Defined.

(** The application of [same_name_fs]. *)
Lemma command_runs_uv_witness :
  tool_app ∈ discover_apps demo_discovery same_name_fs ∧
  ∃ rest, command tool_app = ("uv run " ++ rest)%string ∧
    split_ws (command tool_app) = "uv" :: "run" :: split_ws rest.
Proof.
  split; [apply tool_app_listed|].
  apply (command_runs_uv demo_discovery same_name_fs tool_app tool_app_listed).
Defined.


(** The script descriptor of [same_name_fs]. *)
Lemma listed_script_has_file_witness :
  (tool_script ∈ discover_apps demo_discovery same_name_fs ∧
   from_scripts demo_discovery tool_script) ∧
  ∃ files f content, scripts_dir same_name_fs = Some files ∧ f ∈ files ∧
    endswith ".py" (file_name f) = true ∧ file_name f ≠ "__init__.py" ∧
    script_text f = Text content ∧
    name tool_script = stem (file_name f) ∧ type tool_script = "script" ∧
    port tool_script = None ∧
    main_file tool_script = joinpath (path tool_script) (file_name f).
Proof.
  assert (from_scripts demo_discovery tool_script) as Hs by reflexivity.
  split; [split; [apply tool_script_listed|exact Hs]|].
  apply (listed_script_has_file demo_discovery same_name_fs tool_script
           tool_script_listed Hs).
Defined.

End DiscoveryFacts.

(** ** Properties of the scan with calls that raise *)

Module ScanFacts.
Import Discovery Scan DiscoveryFacts.

Lemma determine_app_type_observed content app ty :
  Scan._determine_app_type content app = Ok ty →
  Discovery._determine_app_type content (observed_entry app) = ty.
Proof.
  unfold Scan._determine_app_type, Discovery._determine_app_type.
  destruct (any_in tui_markers (lower content)); [by intros [= <-]|].
  destruct (any_in gui_markers (lower content)); [by intros [= <-]|].
  destruct (any_in cli_markers (lower content)); [by intros [= <-]|].
  destruct (any_in web_markers (lower content)); [by intros [= <-]|].
  simpl.
  destruct (templates_exists app) as [[|]|]; simpl; [by intros [= <-]| |done].
  destruct (static_exists app) as [[|]|]; simpl; by intros [= <-].
Qed.

Lemma analyze_app_observed self app e :
  main_exists app = Ok e →
  Scan._analyze_app self app
  = Ok (Discovery._analyze_app self (observed_entry app)).
Proof.
  intros E. unfold Scan._analyze_app, Discovery._analyze_app.
  assert (main_py (observed_entry app)
          = if e then Some (observed_text app) else None) as ->
    by (unfold observed_entry; simpl; by rewrite E).
  rewrite E. simpl. destruct e; simpl; [|done].
  unfold observed_text.
  destruct (main_text app) as [content|x]; [|done].
  destruct (Scan._determine_app_type content app) as [ty|x] eqn:Et; [|done].
  simpl. by rewrite (determine_app_type_observed _ _ _ Et).
Qed.

Lemma scan_apps_loop_observed self entries :
  forallb entry_calls_return entries = true →
  scan_apps_loop self entries
  = Ok (collect (fun app =>
                   if is_dir app && negb (str_eq (entry_name app) "__pycache__")
                   then Discovery._analyze_app self app else None)
          (map observed_entry entries)).
Proof.
  induction entries as [|app entries IH]; [done|].
  simpl. intros [Ha Hr]%andb_true_iff. rewrite (IH Hr). clear IH.
  unfold entry_calls_return in Ha.
  destruct (app_is_dir app) as [d|x]; [|done]. simpl.
  destruct (d && negb (str_eq (app_name app) "__pycache__")) eqn:Ed.
  - destruct (main_exists app) as [e|x] eqn:Ee; [|done].
    rewrite (analyze_app_observed _ _ _ Ee). simpl.
    by destruct (Discovery._analyze_app self (observed_entry app)).
  - done.
Qed.

Lemma scan_apps_loop_raises self entries :
  forallb entry_calls_return entries = false →
  ∃ x, scan_apps_loop self entries = Raise x.
Proof.
  induction entries as [|app entries IH]; [done|].
  simpl. intros H. apply andb_false_iff in H as [Ha|Hr].
  - unfold entry_calls_return in Ha.
    destruct (app_is_dir app) as [d|x]; [|by eexists]. simpl.
    destruct (d && negb (str_eq (app_name app) "__pycache__")); [|done].
    unfold Scan._analyze_app.
    destruct (main_exists app) as [e|x]; [done|by eexists].
  - destruct (IH Hr) as [x ->].
    destruct (app_is_dir app) as [d|y]; [|by eexists]. simpl.
    destruct (if d && negb (str_eq (app_name app) "__pycache__")
              then Scan._analyze_app self app else Ok None) as [?|y];
      by eexists.
Qed.

Lemma scan_apps_observed self t :
  apps_calls_return t = true →
  Scan.scan_apps self t = Ok (Discovery.scan_apps self (observed t)).
Proof.
  unfold apps_calls_return, Scan.scan_apps, Discovery.scan_apps, observed.
  destruct (apps_exists t) as [[|]|]; [|done..]. simpl.
  destruct (apps_iterdir t) as [entries|]; [|done]. simpl.
  apply scan_apps_loop_observed.
Qed.

Lemma scan_apps_raises self t :
  apps_calls_return t = false → ∃ x, Scan.scan_apps self t = Raise x.
Proof.
  unfold apps_calls_return, Scan.scan_apps.
  destruct (apps_exists t) as [[|]|x]; [|done|by eexists]. simpl.
  destruct (apps_iterdir t) as [entries|x]; [|by eexists]. simpl.
  apply scan_apps_loop_raises.
Qed.

Lemma scan_scripts_observed self t :
  scripts_calls_return t = true →
  Scan.scan_scripts self t = Ok (Discovery.scan_scripts self (observed t)).
Proof.
  unfold scripts_calls_return, Scan.scan_scripts, Discovery.scan_scripts,
    observed.
  destruct (scripts_exists t) as [[|]|]; [|done..]. simpl.
  by destruct (scripts_glob t) as [files|].
Qed.

Lemma scan_scripts_raises self t :
  scripts_calls_return t = false → ∃ x, Scan.scan_scripts self t = Raise x.
Proof.
  unfold scripts_calls_return, Scan.scan_scripts.
  destruct (scripts_exists t) as [[|]|x]; [|done|by eexists]. simpl.
  destruct (scripts_glob t) as [files|x]; [done|by eexists].
Qed.

Lemma discover_apps_observed self t :
  calls_return t = true →
  Scan.discover_apps self t = Ok (Discovery.discover_apps self (observed t)).
Proof.
  intros [Ha Hs]%andb_true_iff. unfold Scan.discover_apps.
  by rewrite (scan_apps_observed _ _ Ha), (scan_scripts_observed _ _ Hs).
Qed.

Lemma discover_apps_raises self t :
  calls_return t = false → ∃ x, Scan.discover_apps self t = Raise x.
Proof.
  intros H. unfold Scan.discover_apps.
  apply andb_false_iff in H as [Ha|Hs].
  - destruct (scan_apps_raises self t Ha) as [x ->]. by eexists.
  - destruct (scan_scripts_raises self t Hs) as [x ->].
    destruct (Scan.scan_apps self t); by eexists.
Qed.

Lemma discover_apps_returned self t l :
  Scan.discover_apps self t = Ok l →
  calls_return t = true ∧ l = Discovery.discover_apps self (observed t).
Proof.
  intros E. destruct (calls_return t) eqn:H.
  - rewrite (discover_apps_observed _ _ H) in E. by injection E as <-.
  - destruct (discover_apps_raises self t H) as [x Hx]. congruence.
Qed.

Lemma elem_of_observed_apps t entries e :
  apps_dir (observed t) = Some entries → e ∈ entries →
  ∃ es app, apps_exists t = Ok true ∧ apps_iterdir t = Ok es ∧
    app ∈ es ∧ e = observed_entry app.
Proof.
  unfold observed. simpl.
  destruct (apps_exists t) as [[|]|]; simpl; [|done..].
  destruct (apps_iterdir t) as [es|]; intros [= <-] He.
  - apply list_elem_of_fmap in He as (app & -> & Happ). by exists es, app.
  - by apply elem_of_nil in He.
Qed.

Lemma observed_main_py app content :
  main_py (observed_entry app) = Some (Text content) →
  main_exists app = Ok true ∧ main_text app = Text content.
Proof.
  unfold observed_entry, observed_text. simpl.
  destruct (main_exists app) as [[|]|]; simpl; [|done..].
  destruct (main_text app) as [c|]; [|done].
  destruct (Scan._determine_app_type c app); [|done].
  by intros [= ->].
Qed.

(** X21.  [discover_apps] returns exactly when every call that it
    makes outside a [try] returns: [exists()] and [iterdir()] on the
    applications directory, [is_dir()] on every entry, [exists()] on
    the [main.py] of every directory other than [__pycache__],
    [exists()] and [glob()] on the scripts directory.  It then
    returns the sorted list of [Discovery.discover_apps]; whether
    [read_text()] or a call inside a [try] raises plays no part.
    When one of these calls raises, the scan raises and returns no
    descriptor at all. *)
Theorem scan_returns_or_aborts self t :
  (calls_return t = true →
   Scan.discover_apps self t
   = Ok (Discovery.discover_apps self (observed t))) ∧
  (calls_return t = false → ∃ x, Scan.discover_apps self t = Raise x).
Proof.
  split; [apply discover_apps_observed|apply discover_apps_raises].
Qed.

(** The scan of [same_name_tree] returns; with one more directory on
    which [is_dir()] raises, it raises. *)
Lemma scan_returns_or_aborts_witness :
  (calls_return same_name_tree = true ∧
   Scan.discover_apps demo_discovery same_name_tree
   = Ok [tool_app; tool_script]) ∧
  (calls_return locked_tree = false ∧
   Scan.discover_apps demo_discovery locked_tree = Raise PermissionError).
Proof.
  split.
  - split; [reflexivity|].
    etrans; [by apply (scan_returns_or_aborts demo_discovery same_name_tree)|].
    by vm_compute.
  - split; [reflexivity|].
    destruct (scan_returns_or_aborts demo_discovery locked_tree) as [_ H].
    destruct (H eq_refl) as [x Hx]. rewrite Hx. f_equal.
    assert (Scan.discover_apps demo_discovery locked_tree
            = Raise PermissionError) as E by (by vm_compute).
    congruence.
Defined.

(** X15.  When the calls outside a [try] return, the scan returns
    and lists every directory of the applications directory, other
    than [__pycache__], whose [main.py] is read and whose
    [templates] and [static] tests return, under its directory
    name. *)
Theorem readable_app_is_listed self t entries app content :
  calls_return t = true →
  apps_exists t = Ok true → apps_iterdir t = Ok entries → app ∈ entries →
  app_is_dir app = Ok true → app_name app ≠ "__pycache__" →
  main_exists app = Ok true → main_text app = Text content →
  returns (templates_exists app) = true →
  returns (static_exists app) = true →
  ∃ l d, Scan.discover_apps self t = Ok l ∧ d ∈ l ∧
    name d = app_name app ∧
    main_file d = joinpath (path d) "main.py".
Proof.
  intros Hr Ha Hi Happ Hd Hn He Ht Htt Hst.
  exists (Discovery.discover_apps self (observed t)).
  assert (∃ ty, Scan._determine_app_type content app = Ok ty) as [ty Hty].
  { unfold Scan._determine_app_type.
    destruct (any_in tui_markers (lower content)); [by eexists|].
    destruct (any_in gui_markers (lower content)); [by eexists|].
    destruct (any_in cli_markers (lower content)); [by eexists|].
    destruct (any_in web_markers (lower content)); [by eexists|].
    destruct (templates_exists app) as [[|]|]; [by eexists| |done].
    destruct (static_exists app) as [[|]|]; [by eexists..|done]. }
  destruct (scan_lists_readable_app self (observed t)
              (map observed_entry entries) (observed_entry app) content)
    as (d & Hin & Hname & _ & _ & Hmain).
  - unfold observed. simpl. by rewrite Ha, Hi.
  - apply list_elem_of_fmap. by exists app.
  - simpl. by rewrite Hd.
  - done.
  - unfold observed_entry, observed_text. simpl. by rewrite He, Ht, Hty.
  - exists d. split_and!; [by apply discover_apps_observed|done..].
Qed.

(** X16.  When the scan returns, every descriptor that does not come
    from the scripts directory comes from an entry of the
    applications directory, not [__pycache__], for which [is_dir()]
    and the [exists()] of its [main.py] returned [True] and whose
    [main.py] was read. *)
Theorem listed_app_has_entry_file self t l d :
  Scan.discover_apps self t = Ok l → d ∈ l → ¬ from_scripts self d →
  ∃ entries app content,
    apps_exists t = Ok true ∧ apps_iterdir t = Ok entries ∧ app ∈ entries ∧
    app_name app = name d ∧ app_is_dir app = Ok true ∧
    app_name app ≠ "__pycache__" ∧
    main_exists app = Ok true ∧ main_text app = Text content.
Proof.
  intros [_ ->]%discover_apps_returned Hd Hs.
  destruct (scan_app_has_entry_file self (observed t) d Hd Hs)
    as (entries & e & content & Hfs & He & Hname & Hdir & Hn & Hmain).
  destruct (elem_of_observed_apps _ _ _ Hfs He)
    as (es & app & Ha & Hi & Happ & ->).
  apply observed_main_py in Hmain as [Hex Htext].
  exists es, app, content. split_and!; try done.
  simpl in Hdir. by destruct (app_is_dir app) as [[|]|].
Qed.

(** X17.  When the calls outside a [try] return, the scan returns
    and lists every file [n.py] of the scripts directory that is
    read, with [n] not empty and not [__init__], under the name [n],
    with type [script], no port, and the command
    [uv run python scripts/n.py]. *)
Theorem readable_script_is_listed self t files f n content :
  calls_return t = true →
  scripts_exists t = Ok true → scripts_glob t = Ok files → f ∈ files →
  file_name f = (n ++ ".py")%string → n ≠ "" → n ≠ "__init__" →
  script_text f = Text content →
  ∃ l d, Scan.discover_apps self t = Ok l ∧ d ∈ l ∧
    name d = n ∧ type d = "script" ∧ port d = None ∧
    description d = _extract_description content ∧
    command d = ("uv run python scripts/" ++ n ++ ".py")%string.
Proof.
  intros Hr Hs Hg Hf Hname Hn Hinit Htext.
  exists (Discovery.discover_apps self (observed t)).
  destruct (scan_lists_readable_script self (observed t) files f n content)
    as (d & Hd); try done.
  - unfold observed. simpl. by rewrite Hs, Hg.
  - exists d. split; [by apply discover_apps_observed|done].
Qed.

Lemma same_name_tree_scan :
  Scan.discover_apps demo_discovery same_name_tree
  = Ok [tool_app; tool_script].
Proof. by vm_compute. Qed.

(** The directory [tool] of [same_name_tree]. *)
Lemma readable_app_is_listed_witness :
  (calls_return same_name_tree = true ∧
   apps_exists same_name_tree = Ok true ∧
   apps_iterdir same_name_tree = Ok [tool_calls] ∧
   tool_calls ∈ [tool_calls] ∧
   app_is_dir tool_calls = Ok true ∧ app_name tool_calls ≠ "__pycache__" ∧
   main_exists tool_calls = Ok true ∧
   main_text tool_calls = Text "import typer" ∧
   returns (templates_exists tool_calls) = true ∧
   returns (static_exists tool_calls) = true) ∧
  ∃ l d, Scan.discover_apps demo_discovery same_name_tree = Ok l ∧ d ∈ l ∧
    name d = app_name tool_calls ∧
    main_file d = joinpath (path d) "main.py".
Proof.
  assert (tool_calls ∈ [tool_calls]) as He by left.
  assert (app_name tool_calls ≠ "__pycache__") as Hn by discriminate.
  split; [by split_and!|].
  apply (readable_app_is_listed demo_discovery same_name_tree [tool_calls]
           tool_calls "import typer" eq_refl eq_refl eq_refl He eq_refl Hn
           eq_refl eq_refl eq_refl eq_refl).
Defined.

(** The application descriptor of [same_name_tree]. *)
Lemma listed_app_has_entry_file_witness :
  (Scan.discover_apps demo_discovery same_name_tree
   = Ok [tool_app; tool_script] ∧
   tool_app ∈ [tool_app; tool_script] ∧
   ¬ from_scripts demo_discovery tool_app) ∧
  ∃ entries app content,
    apps_exists same_name_tree = Ok true ∧
    apps_iterdir same_name_tree = Ok entries ∧ app ∈ entries ∧
    app_name app = name tool_app ∧ app_is_dir app = Ok true ∧
    app_name app ≠ "__pycache__" ∧
    main_exists app = Ok true ∧ main_text app = Text content.
Proof.
  assert (tool_app ∈ [tool_app; tool_script]) as Hd by left.
  assert (¬ from_scripts demo_discovery tool_app) as Hs by discriminate.
  split; [split_and!; [apply same_name_tree_scan|done..]|].
  apply (listed_app_has_entry_file demo_discovery same_name_tree
           [tool_app; tool_script] tool_app same_name_tree_scan Hd Hs).
Defined.

(** The file [tool.py] of [same_name_tree]. *)
Lemma readable_script_is_listed_witness :
  let f := mkScriptEntry "tool.py" (Text "print(1)") in
  (calls_return same_name_tree = true ∧
   scripts_exists same_name_tree = Ok true ∧
   scripts_glob same_name_tree = Ok [f] ∧ f ∈ [f] ∧
   file_name f = ("tool" ++ ".py")%string ∧ "tool" ≠ "" ∧
   "tool" ≠ "__init__" ∧ script_text f = Text "print(1)") ∧
  ∃ l d, Scan.discover_apps demo_discovery same_name_tree = Ok l ∧ d ∈ l ∧
    name d = "tool" ∧ type d = "script" ∧ port d = None ∧
    description d = _extract_description "print(1)" ∧
    command d = ("uv run python scripts/" ++ "tool" ++ ".py")%string.
Proof.
  assert (mkScriptEntry "tool.py" (Text "print(1)")
          ∈ [mkScriptEntry "tool.py" (Text "print(1)")]) as Hf by left.
  assert ("tool" ≠ "") as Hn by discriminate.
  assert ("tool" ≠ "__init__") as Hi by discriminate.
  simpl. split; [by split_and!|].
  apply (readable_script_is_listed demo_discovery same_name_tree _ _ "tool"
           "print(1)" eq_refl eq_refl eq_refl Hf eq_refl Hn Hi eq_refl).
Defined.

End ScanFacts.

Module RunnerFacts.
Import Discovery Runner.

Lemma set_status_lookup w p st q pr :
  procs w !! q = Some pr →
  ∃ pr', procs (set_status w p st) !! q = Some pr' ∧ owner pr' = owner pr.
Proof.
  intros E. unfold set_status. simpl. rewrite lookup_alter.
  case_decide; [subst|]; rewrite E; simpl; eauto.
Qed.

Lemma terminate_then_kill_lookup w p q pr :
  procs w !! q = Some pr →
  ∃ pr', procs (terminate_then_kill w p) !! q = Some pr' ∧ owner pr' = owner pr.
Proof.
  intros E. unfold terminate_then_kill.
  destruct (procs w !! p) as [pr0|]; [|eauto].
  destruct (status pr0); eauto.
  destruct (stubborn w (argv pr0)); by apply set_status_lookup.
Qed.

Lemma run_app_inv w self app w' self' p :
  run_app w self app = Ok (w', self', p) →
  p = fresh (dom (procs w)) ∧
  procs w' = <[p := mkProcess (name app) (split_ws (command app)) Alive]> (procs w) ∧
  running_processes self' = <[name app := p]> (running_processes self).
Proof.
  unfold run_app, Popen.
  destruct (launchable w _); [|done]. by intros [= <- <- <-].
Qed.

Lemma step_handles_owned st o : handles_owned st → handles_owned (step st o).
Proof.
  destruct st as [w self]. intros H. destruct o as [app|n|p]; simpl.
  - destruct (run_app w self app) as [[[w' self'] p]|e] eqn:E; [|done].
    apply run_app_inv in E as (-> & Ew & Er).
    intros n q. simpl. rewrite Er, Ew.
    destruct (decide (name app = n)) as [<-|Hn].
    + rewrite lookup_insert_eq. intros [= <-].
      rewrite lookup_insert_eq. eauto.
    + rewrite lookup_insert_ne by done. intros Hq.
      destruct (H n q Hq) as (pr & Epr & Ho). simpl in Epr.
      rewrite lookup_insert_ne; [eauto|].
      intros <-. apply (is_fresh (dom (procs w))).
      apply elem_of_dom. eauto.
  - unfold stop_app.
    destruct (running_processes self !! n) as [p|] eqn:E; [|done].
    intros n0 q. simpl.
    destruct (decide (n = n0)) as [<-|Hn].
    + by rewrite lookup_delete_eq.
    + rewrite lookup_delete_ne by done. intros Hq.
      destruct (H n0 q Hq) as (pr & Epr & Ho). simpl in Epr.
      destruct (terminate_then_kill_lookup w p q pr Epr) as (pr' & ? & ?).
      exists pr'. split; [done|congruence].
  - destruct (is_alive w p); [|done].
    intros n q Hq. destruct (H n q Hq) as (pr & Epr & Ho). simpl in *.
    destruct (set_status_lookup w p ExitedByItself q pr Epr) as (pr' & ? & ?).
    exists pr'. split; [done|congruence].
Qed.

Lemma run_handles_owned ops : ∀ st, handles_owned st → handles_owned (run st ops).
Proof.
  induction ops as [|o ops IH]; intros st H; simpl; [done|].
  apply IH. by apply step_handles_owned.
Qed.

Lemma initial_handles_owned w root : handles_owned (initial w root).
Proof. intros n p. simpl. by rewrite lookup_empty. Qed.

(** C7.  [stop_app] on a name with no registered handle raises
    nothing, returns [False], and leaves the registry and every child
    process as they were. *)
Theorem stop_unregistered w self app_name :
  running_processes self !! app_name = None →
  stop_app w self app_name = Ok (w, self, false).
Proof. intros E. unfold stop_app. by rewrite E. Qed.

(** A runner that has started nothing. *)
Lemma stop_unregistered_witness :
  running_processes (mkAppRunner "/repo" ∅) !! "web" = None ∧
  stop_app demo_os (mkAppRunner "/repo" ∅) "web"
    = Ok (demo_os, mkAppRunner "/repo" ∅, false).
Proof.
  split; [reflexivity|].
  apply (stop_unregistered demo_os (mkAppRunner "/repo" ∅) "web").
  reflexivity.
Defined.

(** C3 (amended).  After every sequence of starts, stops and exits of
    children, each registered handle belongs to a child that was
    started for the name it is registered under (the registry, keyed
    by name, holds one handle per name); and a start that succeeds
    registers the new child under the name, keeps the handles of the
    other names, and leaves every child that existed before, the one
    previously registered under that name included, as it was. *)
Theorem start_replaces_handle w root ops :
  let st := run (initial w root) ops in
  handles_owned st ∧
  ∀ app w' self' p, run_app st.1 st.2 app = Ok (w', self', p) →
    running_processes self' !! name app = Some p ∧
    (∀ n, n ≠ name app →
       running_processes self' !! n = running_processes st.2 !! n) ∧
    (p ∉ dom (procs st.1)) ∧
    (∀ q, q ∈ dom (procs st.1) → procs w' !! q = procs st.1 !! q).
Proof.
  intros st. split.
  - apply run_handles_owned, initial_handles_owned.
  - intros app w' self' p E.
    apply run_app_inv in E as (-> & Ew & Er). rewrite Er, Ew. split_and!.
    + apply lookup_insert_eq.
    + intros n Hn. by rewrite lookup_insert_ne.
    + apply is_fresh.
    + intros q Hq. rewrite lookup_insert_ne; [done|].
      intros <-. by apply is_fresh in Hq.
Qed.

(** C3 as stated fails: two starts of one descriptor leave two live
    children started for its name; the second start neither stopped
    nor polled the first. *)
Lemma two_live_processes_for_one_name :
  let st := run (initial demo_os "/repo") [Start demo_app; Start demo_app] in
  length (live_for st.1 "web") = 2%nat ∧
  running_processes st.2 !! "web" = Some 2%positive ∧
  is_alive st.1 1%positive = true ∧
  is_alive st.1 2%positive = true.
Proof. by vm_compute. Qed.

(** A second start of the same descriptor: the first child stays
    alive, the handle is the second child. *)
Lemma start_replaces_handle_witness :
  let st := run (initial demo_os "/repo") [Start demo_app] in
  ∃ w' self' p,
    run_app st.1 st.2 demo_app = Ok (w', self', p) ∧
    running_processes st.2 !! "web" = Some 1%positive ∧
    running_processes self' !! "web" = Some p ∧
    (p ∉ dom (procs st.1)) ∧
    procs w' !! 1%positive = procs st.1 !! 1%positive ∧
    is_alive w' 1%positive = true.
Proof.
  intros st.
  destruct (run_app st.1 st.2 demo_app) as [[[w' self'] p]|e] eqn:E;
    [|by vm_compute in E].
  exists w', self', p.
  destruct (start_replaces_handle demo_os "/repo" [Start demo_app])
    as [_ H].
  destruct (H demo_app w' self' p E) as (H1 & H2 & H3 & H4).
  pose proof (H4 1%positive ltac:(by vm_compute)) as H5.
  split; [done|]. split; [by vm_compute|]. split; [done|].
  split; [done|]. split; [done|].
  unfold is_alive. rewrite H5. by vm_compute.
Defined.

(** *** Further properties of the runner *)

Lemma is_alive_set_status_eq w p st :
  st ≠ Alive → is_alive (set_status w p st) p = false.
Proof.
  intros Hst. unfold is_alive, set_status. simpl. rewrite lookup_alter.
  case_decide; [|done]. destruct (procs w !! p); simpl; [|done].
  by destruct st.
Qed.

Lemma procs_set_status_ne w p q st :
  p ≠ q → procs (set_status w p st) !! q = procs w !! q.
Proof.
  intros Hpq. unfold set_status. simpl. rewrite lookup_alter.
  by case_decide.
Qed.

Lemma terminate_then_kill_dead w p : is_alive (terminate_then_kill w p) p = false.
Proof.
  unfold terminate_then_kill.
  destruct (procs w !! p) as [pr|] eqn:E.
  - destruct (status pr) eqn:Est.
    + destruct (stubborn w (argv pr)); by apply is_alive_set_status_eq.
    + unfold is_alive. by rewrite E, Est.
    + unfold is_alive. by rewrite E, Est.
    + unfold is_alive. by rewrite E, Est.
  - unfold is_alive. by rewrite E.
Qed.

Lemma terminate_then_kill_others w p q :
  p ≠ q → procs (terminate_then_kill w p) !! q = procs w !! q.
Proof.
  intros Hpq. unfold terminate_then_kill.
  destruct (procs w !! p) as [pr|]; [|done].
  destruct (status pr); try done.
  destruct (stubborn w (argv pr)); by apply procs_set_status_ne.
Qed.

(** X8.  [stop_app] on a registered name returns [True]; afterwards the
    child is not alive, [is_running] is false for the name, every
    other child and every other handle is as before, and a second
    [stop_app] for the name returns [False]. *)
Theorem stop_registered w self app_name p :
  running_processes self !! app_name = Some p →
  ∃ w' self',
    stop_app w self app_name = Ok (w', self', true) ∧
    is_alive w' p = false ∧
    is_running w' self' app_name = false ∧
    (∀ q, q ≠ p → procs w' !! q = procs w !! q) ∧
    (∀ n, n ≠ app_name →
       running_processes self' !! n = running_processes self !! n) ∧
    stop_app w' self' app_name = Ok (w', self', false).
Proof.
  intros E. unfold stop_app at 1. rewrite E. eexists _, _.
  split; [done|]. split_and!.
  - apply terminate_then_kill_dead.
  - unfold is_running. simpl. by rewrite lookup_delete_eq.
  - intros q Hq. by apply terminate_then_kill_others.
  - intros n Hn. simpl. by rewrite lookup_delete_ne.
  - unfold stop_app. simpl. by rewrite lookup_delete_eq.
Qed.

(** X9.  [run_app] succeeds when the argument vector of the command
    can be spawned, and then [is_running] holds for the name; when it
    cannot be spawned, [run_app] raises [RuntimeError]. *)
Theorem start_outcome w self app :
  (launchable w (split_ws (command app)) = true →
   ∃ w' self' p, run_app w self app = Ok (w', self', p) ∧
     is_running w' self' (name app) = true) ∧
  (launchable w (split_ws (command app)) = false →
   run_app w self app = Raise RuntimeError).
Proof.
  unfold run_app, Popen. split; intros ->; [|done].
  eexists _, _, _. split; [done|].
  unfold is_running, is_alive. simpl.
  by rewrite !lookup_insert_eq.
Qed.

(** X10.  When a registered child exits by itself, [is_running]
    becomes false but the handle stays registered, and [stop_app]
    still returns [True] without changing any child. *)
Theorem exited_child_stays_registered w self app_name p :
  running_processes self !! app_name = Some p →
  is_alive w p = true →
  let '(w', self') := step (w, self) (ChildExits p) in
  is_running w' self' app_name = false ∧
  running_processes self' !! app_name = Some p ∧
  ∃ self'', stop_app w' self' app_name = Ok (w', self'', true).
Proof.
  intros E Ha. simpl. rewrite Ha.
  assert (is_alive (set_status w p ExitedByItself) p = false) as Hd
    by (by apply is_alive_set_status_eq).
  split_and!.
  - unfold is_running. by rewrite E.
  - done.
  - unfold stop_app. rewrite E. eexists. do 2 f_equal.
    unfold terminate_then_kill. unfold is_alive in Hd.
    destruct (procs (set_status w p ExitedByItself) !! p) as [pr|]; [|done].
    by destruct (status pr).
Qed.

(** X11.  After every sequence of operations, no child is registered
    under two names. *)
Theorem handles_are_not_shared w root ops n1 n2 p :
  let st := run (initial w root) ops in
  running_processes st.2 !! n1 = Some p →
  running_processes st.2 !! n2 = Some p →
  n1 = n2.
Proof.
  intros st H1 H2.
  pose proof (run_handles_owned ops _ (initial_handles_owned w root)) as H.
  destruct (H n1 p H1) as (pr1 & E1 & <-).
  destruct (H n2 p H2) as (pr2 & E2 & <-). congruence.
Qed.

(** Stopping the one application that was started. *)
Lemma stop_registered_witness :
  let st := run (initial demo_os "/repo") [Start demo_app] in
  running_processes st.2 !! "web" = Some 1%positive ∧
  ∃ w' self',
    stop_app st.1 st.2 "web" = Ok (w', self', true) ∧
    is_alive w' 1%positive = false ∧
    is_running w' self' "web" = false ∧
    stop_app w' self' "web" = Ok (w', self', false).
Proof.
  assert (running_processes
            (run (initial demo_os "/repo") [Start demo_app]).2 !! "web"
          = Some 1%positive) as E by (by vm_compute).
  split; [exact E|].
  destruct (stop_registered
              (run (initial demo_os "/repo") [Start demo_app]).1 _ _ _ E)
    as (w' & self' & H1 & H2 & H3 & _ & _ & H6).
  by exists w', self'.
Defined.

(** A system that spawns everything, and one that spawns nothing. *)
Lemma start_outcome_witness :
  (launchable demo_os (split_ws (command demo_app)) = true ∧
   ∃ w' self' p,
     run_app demo_os (mkAppRunner "/repo" ∅) demo_app = Ok (w', self', p) ∧
     is_running w' self' (name demo_app) = true) ∧
  (launchable (mkOs ∅ (λ _, false) (λ _, false))
     (split_ws (command demo_app)) = false ∧
   run_app (mkOs ∅ (λ _, false) (λ _, false)) (mkAppRunner "/repo" ∅) demo_app
   = Raise RuntimeError).
Proof.
  split; (split; [reflexivity|]).
  - apply (start_outcome demo_os (mkAppRunner "/repo" ∅) demo_app).
    reflexivity.
  - apply (start_outcome (mkOs ∅ (λ _, false) (λ _, false))
             (mkAppRunner "/repo" ∅) demo_app).
    reflexivity.
Defined.

(** The started application exits by itself. *)
Lemma exited_child_stays_registered_witness :
  let st := run (initial demo_os "/repo") [Start demo_app] in
  (running_processes st.2 !! "web" = Some 1%positive ∧
   is_alive st.1 1%positive = true) ∧
  let '(w', self') := step (st.1, st.2) (ChildExits 1%positive) in
  is_running w' self' "web" = false ∧
  running_processes self' !! "web" = Some 1%positive ∧
  ∃ self'', stop_app w' self' "web" = Ok (w', self'', true).
Proof.
  assert (running_processes
            (run (initial demo_os "/repo") [Start demo_app]).2 !! "web"
          = Some 1%positive) as E by (by vm_compute).
  assert (is_alive (run (initial demo_os "/repo") [Start demo_app]).1
            1%positive = true) as Ha by (by vm_compute).
  split; [by split|].
  apply (exited_child_stays_registered _ _ "web" 1%positive E Ha).
Defined.

(** After one start. *)
Lemma handles_are_not_shared_witness :
  let st := run (initial demo_os "/repo") [Start demo_app] in
  running_processes st.2 !! "web" = Some 1%positive ∧ "web" = "web".
Proof.
  assert (running_processes
            (run (initial demo_os "/repo") [Start demo_app]).2 !! "web"
          = Some 1%positive) as E by (by vm_compute).
  split; [exact E|].
  apply (handles_are_not_shared demo_os "/repo" [Start demo_app]
           "web" "web" 1%positive E E).
Defined.

End RunnerFacts.
